(** * ConvertReferences: strong/weak reference conversion for document trees

    A shallow embedding of [src/ConvertReferences.tsx]: the recursive
    reference finder, the scan orchestrator, the batched conversion
    pipeline and the byte-size formatter, together with the properties
    stated about them. *)

From Stdlib Require Import ZArith List Bool Lia.
From Stdlib Require Import Strings.String Strings.Ascii Numbers.DecimalString.
From Stdlib Require Import Numbers.DecimalNat Numbers.DecimalZ.
Import ListNotations.

Open Scope list_scope.
Open Scope string_scope.

(** ** JavaScript values

    Documents are JSON trees.  An object is kept as the list of its own
    properties in [Object.keys] order (a JS object holds each key once);
    [VUndefined] is what reading a missing property gives.  Numbers are
    the integers. *)

#[local] Set Warnings "-register-all".

Inductive value : Type :=
| VUndefined
| VNull
| VBool (b : bool)
| VNum (n : Z)
| VStr (s : string)
| VArr (items : list value)
| VObj (fields : list (string * value)).

(** Induction over the tree, with the hypotheses for every array element
    and every property value. *)
Section ValueInd.
Variable P : value -> Prop.
Hypothesis Hundef : P VUndefined.
Hypothesis Hnull : P VNull.
Hypothesis Hbool : forall b, P (VBool b).
Hypothesis Hnum : forall n, P (VNum n).
Hypothesis Hstr : forall s, P (VStr s).
Hypothesis Harr : forall items, Forall P items -> P (VArr items).
Hypothesis Hobj :
  forall fields, Forall (fun kv => P (snd kv)) fields -> P (VObj fields).

Fixpoint value_tree_ind (v : value) : P v :=
  match v with
  | VUndefined => Hundef
  | VNull => Hnull
  | VBool b => Hbool b
  | VNum n => Hnum n
  | VStr s => Hstr s
  | VArr items =>
      Harr items
        ((fix all (l : list value) : Forall P l :=
            match l with
            | [] => Forall_nil P
            | x :: r => Forall_cons x (value_tree_ind x) (all r)
            end) items)
  | VObj fields =>
      Hobj fields
        ((fix all (l : list (string * value))
            : Forall (fun kv => P (snd kv)) l :=
            match l with
            | [] => Forall_nil _
            | kv :: r =>
                Forall_cons (P := fun kv => P (snd kv)) kv
                  (value_tree_ind (snd kv)) (all r)
            end) fields)
  end.
End ValueInd.

(** [v && ...]: the falsy values are undefined, null, false, 0 and the
    empty string. *)
Definition truthy (v : value) : bool :=
  match v with
  | VUndefined | VNull => false
  | VBool b => b
  | VNum n => negb (Z.eqb n 0)
  | VStr s => negb (String.eqb s "")
  | VArr _ | VObj _ => true
  end.

(** [typeof v === 'object'] (null included, as in JS). *)
Definition typeof_object (v : value) : bool :=
  match v with
  | VNull | VArr _ | VObj _ => true
  | _ => false
  end.

Fixpoint lookup (key : string) (fields : list (string * value)) : value :=
  match fields with
  | [] => VUndefined
  | (k, v) :: rest => if String.eqb k key then v else lookup key rest
  end.

(** [v.key] for the property names the program reads ([_type], [_ref],
    [_weak], [_id]): an array of a JSON document has none of them. *)
Definition get (v : value) (key : string) : value :=
  match v with
  | VObj fields => lookup key fields
  | _ => VUndefined
  end.

(** [v === 'text'] *)
Definition is_string (v : value) (text : string) : bool :=
  match v with
  | VStr s => String.eqb s text
  | _ => false
  end.

(** [a || b] *)
Definition js_or (a b : value) : value := if truthy a then a else b.

(** Decimal rendering of numbers in template literals. *)
Definition string_of_nat (n : nat) : string :=
  NilEmpty.string_of_uint (Nat.to_uint n).

Definition string_of_Z (z : Z) : string :=
  NilEmpty.string_of_int (Z.to_int z).

(** ** The reference finder *)

Inductive conversion := strong_to_weak | weak_to_strong.

Definition conversion_eqb (a b : conversion) : bool :=
  match a, b with
  | strong_to_weak, strong_to_weak | weak_to_strong, weak_to_strong => true
  | _, _ => false
  end.

Inductive strength := strong | weak_ref.

(** One entry of [refs]: [{path, type, ref, weak}]. *)
Record reference : Type := mkReference {
  path : string;
  type : strength;
  ref : value;
  weak : value
}.

(** [array.forEach((item, index) => refs.push(...f(item, index)))] *)
Definition forEach_items {A : Type} (f : value -> nat -> list A)
  : list value -> nat -> list A :=
  fix go (items : list value) (index : nat) : list A :=
    match items with
    | [] => []
    | item :: rest => (f item index ++ go rest (S index))%list
    end.

(** [Object.keys(obj).forEach(key => { const value = obj[key]; ... })] *)
Definition forEach_keys {A : Type} (f : string -> value -> list A)
  : list (string * value) -> list A :=
  fix go (fields : list (string * value)) : list A :=
    match fields with
    | [] => []
    | (key, v) :: rest => (f key v ++ go rest)%list
    end.

(** [path ? `${path}.${key}` : key] *)
Definition currentPath (path key : string) : string :=
  if String.eqb path "" then key else path ++ "." ++ key.

(** [`${path}[${index}]`] *)
Definition indexPath (path : string) (index : nat) : string :=
  path ++ "[" ++ string_of_nat index ++ "]".

(** [value._type === 'reference' && value._ref] *)
Definition is_reference (v : value) : bool :=
  is_string (get v "_type") "reference" && truthy (get v "_ref").

(** The body of the [Object.keys] loop for one property; [recurse] is the
    recursive call [findReferences(value, type, currentPath)]. *)
Definition visit_field (recurse : value -> string -> list reference)
  (mode : conversion) (path key : string) (v : value) : list reference :=
  let currentPath := currentPath path key in
  if truthy v && typeof_object v then
    if conversion_eqb mode strong_to_weak && is_reference v then
      [ {| path := currentPath; type := strong;
           ref := get v "_ref";
           weak := js_or (get v "_weak") (VBool false) |} ]
    else if conversion_eqb mode weak_to_strong && is_reference v
            && truthy (get v "_weak") then
      [ {| path := currentPath; type := weak_ref;
           ref := get v "_ref"; weak := VBool true |} ]
    else recurse v currentPath
  else [].

(** The source calls its second parameter [type]; it is [mode] here,
    [type] being the field of an entry. *)
Fixpoint findReferences (obj : value) (mode : conversion) (path : string)
  {struct obj} : list reference :=
  match obj with
  | VArr items =>
      forEach_items
        (fun item index => findReferences item mode (indexPath path index))
        items 0
  | VObj fields =>
      forEach_keys
        (visit_field (fun v p => findReferences v mode p) mode path)
        fields
  | _ => []
  end.

(** ** The document store client

    The client is an external collaborator: [fetch] runs a query, and
    [client.patch(id).set({[path]: value})...commit()] submits the field
    updates of one document.  Both act on a store state [St] and may
    throw; what is thrown is an [Error] with a message, or anything else. *)

Inductive thrown := ThrowError (message : string) | ThrowOther.

Record SanityClient (St : Type) : Type := {
  fetch : string -> St -> (thrown + list value) * St;
  patch_commit : value -> list (string * value) -> St -> option thrown * St
}.
Arguments fetch {St}.
Arguments patch_commit {St}.

(** [error instanceof Error ? error.message : fallback] *)
Definition error_message (e : thrown) (fallback : string) : string :=
  match e with
  | ThrowError message => message
  | ThrowOther => fallback
  end.

(** [`${v}`] *)
Fixpoint template (v : value) : string :=
  match v with
  | VUndefined => "undefined"
  | VNull => "null"
  | VBool true => "true"
  | VBool false => "false"
  | VNum n => string_of_Z n
  | VStr s => s
  | VObj _ => "[object Object]"
  | VArr items =>
      (fix join (l : list value) : string :=
         match l with
         | [] => ""
         | x :: rest =>
             let shown :=
               match x with
               | VUndefined | VNull => ""
               | _ => template x
               end in
             match rest with
             | [] => shown
             | _ :: _ => shown ++ "," ++ join rest
             end
         end) items
  end.

(** The double quote of the generated query. *)
Definition dquote : string := String (ascii_of_nat 34) "".

(** ** Component data *)

(** One entry of [strongRefs]: [{document, references, refCount}]. *)
Record ReferenceGroup : Type := {
  document : value;
  references : list reference;
  refCount : nat
}.

Record ConversionResult : Type := {
  converted : nat;
  errors : list string;
  spaceSaved : nat
}.

(** What a run does to the component and to its caller, in order: the
    state setters and the [onComplete] / [onError] hooks. *)
Inductive event :=
| setIsScanning (b : bool)
| setIsLoading (b : bool)
| setMessage (text : string)
| setDocuments (docs : list value)
| setStrongRefs (groups : list ReferenceGroup)
| onComplete (result : ConversionResult)
| onError (text : string).

(** A run ends ([Returned]) or is still going when the fuel is spent
    ([Running]); either way it carries what happened so far. *)
Inductive outcome (A : Type) := Returned (a : A) | Running (a : A).
Arguments Returned {A}.
Arguments Running {A}.

Definition so_far {A : Type} (o : outcome A) : A :=
  match o with Returned a | Running a => a end.

Definition returned {A : Type} (o : outcome A) : bool :=
  match o with Returned _ => true | Running _ => false end.

(** [array.slice(start, end)], negative positions counting from the end. *)
Definition js_slice {A : Type} (l : list A) (first last : Z) : list A :=
  let len := Z.of_nat (List.length l) in
  let clamp := fun p => if (p <? 0)%Z then Z.max (len + p) 0 else Z.min p len in
  let k := clamp first in
  let fin := clamp last in
  firstn (Z.to_nat (fin - k)) (skipn (Z.to_nat k) l).

(** The two values the patches set: [{_type, _ref, _weak: true}] and
    [{_type, _ref}]. *)
Definition weak_descriptor (target : value) : value :=
  VObj [("_type", VStr "reference"); ("_ref", target); ("_weak", VBool true)].

Definition strong_descriptor (target : value) : value :=
  VObj [("_type", VStr "reference"); ("_ref", target)].

(** The message pushed to [errors] by the inner catch. *)
Definition failure_message (g : ReferenceGroup) (e : thrown) : string :=
  "Failed to convert " ++ template (get (document g) "_id") ++ ": "
  ++ error_message e "Conversion failed".

Section Component.
Context {St : Type}.

(** Props and component state read by the two callbacks. *)
Variable client : option (SanityClient St).
Variable batchSize : Z.
Variable dryRun : bool.
Variable maxDocuments : Z.
Variable selectedType : string.
Variable searchQuery : string.
Variable useCustomQuery : bool.
Variable customGroqQuery : string.
Variable conversionType : conversion.

Record run : Type := {
  events : list event;
  store : St
}.

(** *** Scan *)

Definition build_query : string :=
  if useCustomQuery && negb (String.eqb customGroqQuery "") then
    customGroqQuery
  else
    let typeFilter :=
      if negb (String.eqb selectedType "")
      then "_type == " ++ dquote ++ selectedType ++ dquote
      else "defined(_type)" in
    let searchFilter :=
      if negb (String.eqb searchQuery "")
      then " && (title match " ++ dquote ++ "*" ++ searchQuery ++ "*"
           ++ dquote ++ " || name match " ++ dquote ++ "*" ++ searchQuery
           ++ "*" ++ dquote ++ ")"
      else "" in
    "*[" ++ typeFilter ++ searchFilter ++ "][0..." ++ string_of_Z maxDocuments
    ++ "]".

(** The loop over [docs] that fills [refsToConvert]. *)
Fixpoint refsToConvert (docs : list value) : list ReferenceGroup :=
  match docs with
  | [] => []
  | doc :: rest =>
      let refs := findReferences doc conversionType "" in
      if (0 <? List.length refs)%nat
      then {| document := doc; references := refs;
              refCount := List.length refs |} :: refsToConvert rest
      else refsToConvert rest
  end.

Definition strength_word : string :=
  match conversionType with
  | strong_to_weak => "strong"
  | weak_to_strong => "weak"
  end.

(** [scanForReferences]: the guard, then the try / catch / finally around
    the one [fetch] and the loop over its documents. *)
Definition scanForReferences (st : St) : run :=
  match client with
  | None => {| events := []; store := st |}
  | Some c =>
      let before :=
        [setIsScanning true;
         setMessage "Scanning for documents with references..."] in
      match fetch c build_query st with
      | (inr docs, st') =>
          let found := refsToConvert docs in
          {| events :=
               (before ++
                [setDocuments docs; setStrongRefs found;
                 setMessage ("Found " ++ string_of_nat (List.length found)
                             ++ " documents with " ++ strength_word
                             ++ " references to convert")%string;
                 setIsScanning false])%list;
             store := st' |}
      | (inl e, st') =>
          let errorMessage := error_message e "Scan failed" in
          {| events :=
               (before ++
                [setMessage ("Scan error: " ++ errorMessage)%string;
                 onError errorMessage; setIsScanning false])%list;
             store := st' |}
      end
  end.

(** *** Convert *)

Variable strongRefs : list ReferenceGroup.

(** The patch of one reference: [{path, value}]. *)
Definition patch_of (r : reference) : string * value :=
  match conversionType with
  | strong_to_weak => (path r, weak_descriptor (ref r))
  | weak_to_strong => (path r, strong_descriptor (ref r))
  end.

Definition build_patches (refs : list reference) : list (string * value) :=
  map patch_of refs.

(** The accumulators of the run ([converted], [errors], [spaceSaved])
    and the store. *)
Record progress : Type := {
  count : nat;
  failures : list string;
  saved : nat;
  current : St
}.

Definition succeed (item : ReferenceGroup) (p : progress) (st : St)
  : progress :=
  {| count := S (count p);
     failures := failures p;
     saved :=
       if conversion_eqb conversionType strong_to_weak
       then saved p + List.length (references item) * 20
       else saved p;
     current := st |}.

Definition fail (item : ReferenceGroup) (e : thrown) (p : progress)
  (st : St) : progress :=
  {| count := count p;
     failures := (failures p ++ [failure_message item e])%list;
     saved := saved p;
     current := st |}.

(** The body of [for (const item of batch)]: the inner try / catch. *)
Definition convert_item (c : SanityClient St) (p : progress)
  (item : ReferenceGroup) : progress :=
  if dryRun then succeed item p (current p)
  else
    match patch_commit c (get (document item) "_id")
            (build_patches (references item)) (current p) with
    | (None, st') => succeed item p st'
    | (Some e, st') => fail item e p st'
    end.

Definition convert_batch (c : SanityClient St) (p : progress)
  (batch : list ReferenceGroup) : progress :=
  fold_left (convert_item c) batch p.

Definition batch_message (p : progress) : event :=
  setMessage ((if dryRun then "Would convert" else "Converted") ++ " "
              ++ string_of_nat (count p) ++ "/"
              ++ string_of_nat (List.length strongRefs) ++ " documents...").

(** [for (let i = 0; i < strongRefs.length; i += batchSize)], with the
    messages set so far.  One unit of fuel is one round of the loop. *)
Fixpoint convert_loop (fuel : nat) (c : SanityClient St) (i : Z)
  (p : progress) (log : list event) : outcome (progress * list event) :=
  match fuel with
  | O => Running (p, log)
  | S fuel' =>
      if (i <? Z.of_nat (List.length strongRefs))%Z then
        let batch := js_slice strongRefs i (i + batchSize) in
        let p' := convert_batch c p batch in
        convert_loop fuel' c (i + batchSize)%Z p'
          (log ++ [batch_message p'])%list
      else Returned (p, log)
  end.

(** The batches the loop takes, one per round. *)
Fixpoint batches (fuel : nat) (i : Z) : list (list ReferenceGroup) :=
  match fuel with
  | O => []
  | S fuel' =>
      if (i <? Z.of_nat (List.length strongRefs))%Z then
        js_slice strongRefs i (i + batchSize)
        :: batches fuel' (i + batchSize)%Z
      else []
  end.

Definition final_message (n : nat) : string :=
  (if dryRun then "Dry run complete" else "Conversion complete") ++ ": "
  ++ string_of_nat n ++ " documents processed".

Definition result_of (p : progress) : ConversionResult :=
  {| converted := count p; errors := failures p; spaceSaved := saved p |}.

Definition start (st : St) : progress :=
  {| count := 0; failures := []; saved := 0; current := st |}.

(** [convertReferences]: the guard, the batch loop inside the outer try,
    the final message and [onComplete], then [finally].  The setters and
    the hooks do not throw, so the outer catch is never entered. *)
Definition convertReferences (fuel : nat) (st : St) : outcome run :=
  match client with
  | None => Returned {| events := []; store := st |}
  | Some c =>
      if (List.length strongRefs =? 0)%nat then
        Returned {| events := []; store := st |}
      else
        match convert_loop fuel c 0 (start st)
                [setIsLoading true; setMessage "Converting references..."]
        with
        | Running (p, log) => Running {| events := log; store := current p |}
        | Returned (p, log) =>
            Returned
              {| events :=
                   (log ++
                    [setMessage (final_message (count p));
                     onComplete (result_of p);
                     setIsLoading false])%list;
                 store := current p |}
        end
  end.
End Component.

(** *** Byte-size formatter

    [bytes] is an integer, below 2^53 in absolute value, where the
    double arithmetic of the source is exact: [Math.floor(Math.log(bytes) /
    Math.log(k))] is the integer logarithm to base 1024, the quotient
    [bytes / Math.pow(k, i)] is exact, [toFixed(2)] rounds it to
    hundredths (halves up), and [parseFloat] followed by the string
    concatenation prints the rounded number in its shortest form.  The
    logarithm of a negative number is [NaN], and so is all that follows. *)

Definition sizes : list string := ["Bytes"; "KB"; "MB"; "GB"].

(** [(x).toFixed(2)] of [x = bytes / 1024^i], as a number of hundredths. *)
Definition toFixed2 (bytes i : Z) : Z :=
  ((200 * bytes + 1024 ^ i) / (2 * 1024 ^ i))%Z.

Definition digit (d : Z) : string := string_of_Z d.

(** [parseFloat(text) + ''] for a number of hundredths: trailing zeros of
    the fraction are gone. *)
Definition shortest (hundredths : Z) : string :=
  let whole := (hundredths / 100)%Z in
  let frac := (hundredths mod 100)%Z in
  if (frac =? 0)%Z then string_of_Z whole
  else if (frac mod 10 =? 0)%Z then
    string_of_Z whole ++ "." ++ digit (frac / 10)
  else
    string_of_Z whole ++ "." ++ digit (frac / 10) ++ digit (frac mod 10).

(** A number of hundredths printed with two decimals, always. *)
Definition two_decimals (hundredths : Z) : string :=
  string_of_Z (hundredths / 100) ++ "."
  ++ digit ((hundredths mod 100) / 10) ++ digit (hundredths mod 10).

Definition unit_index (bytes : Z) : Z := (Z.log2 bytes / 10)%Z.

Definition formatBytes (bytes : Z) : string :=
  if (bytes =? 0)%Z then "0 Bytes"
  else if (bytes <? 0)%Z then "NaN undefined"
  else
    let i := unit_index bytes in
    shortest (toFixed2 bytes i) ++ " "
    ++ nth (Z.to_nat i) sizes "undefined".

(** ** Field paths and the store's [set]

    The finder writes a path as text; the positions it walks through are
    object keys and array indices. *)

Inductive segment := Key (key : string) | Index (index : nat).

Definition extend (path : string) (s : segment) : string :=
  match s with
  | Key key => currentPath path key
  | Index index => indexPath path index
  end.

Definition render_from (path : string) (segs : list segment) : string :=
  fold_left extend segs path.

Definition render (segs : list segment) : string := render_from "" segs.

(** A reference descriptor, as the spec defines it: an object with the
    reference type tag and a target id.  [sites_in v] lists every place
    strictly inside [v] where one sits, whatever surrounds it. *)
Definition site_of (s : segment) (x : value)
  (inner : list (list segment * value)) : list (list segment * value) :=
  ((if is_reference x then [([s], x)] else [])
   ++ map (fun site => (s :: fst site, snd site)) inner)%list.

Fixpoint sites_in (v : value) : list (list segment * value) :=
  match v with
  | VArr items =>
      forEach_items
        (fun item index => site_of (Index index) item (sites_in item))
        items 0
  | VObj fields =>
      forEach_keys (fun key x => site_of (Key key) x (sites_in x)) fields
  | _ => []
  end.

Definition descriptor_sites (doc : value) : list (list segment * value) :=
  ((if is_reference doc then [([], doc)] else []) ++ sites_in doc)%list.

(** The descriptor is the value of an object field. *)
Definition ends_in_key (segs : list segment) : bool :=
  match last segs (Index 0) with
  | Key _ => true
  | Index _ => false
  end.

Fixpoint update_field (key : string) (f : value -> option value)
  (fields : list (string * value)) : option (list (string * value)) :=
  match fields with
  | [] => None
  | (k, v) :: rest =>
      if String.eqb k key
      then option_map (fun v' => (k, v') :: rest) (f v)
      else option_map (cons (k, v)) (update_field key f rest)
  end.

Fixpoint update_item (index : nat) (f : value -> option value)
  (items : list value) : option (list value) :=
  match items, index with
  | [], _ => None
  | x :: rest, O => option_map (fun x' => x' :: rest) (f x)
  | x :: rest, S n => option_map (cons x) (update_item n f rest)
  end.

(** Replacing the value at a position that exists. *)
Fixpoint set_at (segs : list segment) (new : value) (v : value)
  : option value :=
  match segs with
  | [] => Some new
  | Key key :: rest =>
      match v with
      | VObj fields =>
          option_map VObj (update_field key (set_at rest new) fields)
      | _ => None
      end
  | Index index :: rest =>
      match v with
      | VArr items =>
          option_map VArr (update_item index (set_at rest new) items)
      | _ => None
      end
  end.

Definition nat_of_string (s : string) : option nat :=
  if String.eqb s "" then None
  else option_map Nat.of_uint (NilEmpty.uint_of_string s).

Definition snoc (s : string) (c : ascii) : string := s ++ String c "".

(** Reading a path back: keys separated by dots, indices in brackets. *)
Fixpoint parse_key (s : string) (acc : string) : option (list segment) :=
  match s with
  | "" => if String.eqb acc "" then None else Some [Key acc]
  | String c rest =>
      if Ascii.eqb c "." then
        if String.eqb acc "" then None
        else option_map (cons (Key acc)) (parse_key rest "")
      else if Ascii.eqb c "[" then
        if String.eqb acc "" then None
        else option_map (cons (Key acc)) (parse_index rest "")
      else parse_key rest (snoc acc c)
  end
with parse_index (s : string) (acc : string) : option (list segment) :=
  match s with
  | "" => None
  | String c rest =>
      if Ascii.eqb c "]" then
        match nat_of_string acc with
        | Some n => option_map (cons (Index n)) (parse_after rest)
        | None => None
        end
      else parse_index rest (snoc acc c)
  end
with parse_after (s : string) : option (list segment) :=
  match s with
  | "" => Some []
  | String c rest =>
      if Ascii.eqb c "." then parse_key rest ""
      else if Ascii.eqb c "[" then parse_index rest ""
      else None
  end.

Definition parse_path (s : string) : option (list segment) :=
  match s with
  | "" => Some []
  | String c rest =>
      if Ascii.eqb c "[" then parse_index rest "" else parse_key s ""
  end.

(** Modelled from the spec: [PatchBuilder.set(fieldPath, value)] of the
    document store, which is not part of the sources.  It applies a
    field-level mutation to one document: the path is read back into the
    position it names and the value there is replaced; a path that names
    no position of the document makes the update fail. *)
Definition store_set (fieldPath : string) (new : value) (doc : value)
  : option value :=
  match parse_path fieldPath with
  | Some segs => set_at segs new doc
  | None => None
  end.

(** Modelled from the spec: the patches of one commit are applied to the
    document in the order in which [set] was called. *)
Fixpoint apply_patches (patches : list (string * value)) (doc : value)
  : option value :=
  match patches with
  | [] => Some doc
  | (fieldPath, new) :: rest =>
      match store_set fieldPath new doc with
      | Some doc' => apply_patches rest doc'
      | None => None
      end
  end.

(** Keys as a document schema has them: not empty, without the dot and
    the bracket that separate the parts of a path. *)
Fixpoint plain_key_chars (s : string) : bool :=
  match s with
  | "" => true
  | String c rest =>
      negb (Ascii.eqb c ".") && negb (Ascii.eqb c "[") && plain_key_chars rest
  end.

Definition plain_key (s : string) : bool :=
  negb (String.eqb s "") && plain_key_chars s.

Fixpoint has_key (key : string) (fields : list (string * value)) : bool :=
  match fields with
  | [] => false
  | (k, _) :: rest => String.eqb k key || has_key key rest
  end.

(** Every object of the tree holds each key once, and its keys are plain. *)
Fixpoint well_formed (v : value) : bool :=
  match v with
  | VArr items =>
      (fix all (l : list value) : bool :=
         match l with
         | [] => true
         | x :: rest => well_formed x && all rest
         end) items
  | VObj fields =>
      (fix all (l : list (string * value)) : bool :=
         match l with
         | [] => true
         | (k, x) :: rest =>
             plain_key k && negb (has_key k rest) && well_formed x && all rest
         end) fields
  | _ => true
  end.

(** ** A client that records its calls *)

Inductive call :=
| Fetch (query : string)
| Commit (id : value) (patches : list (string * value)).

Definition recording_client (docs : list value)
  (failing : value -> option thrown) : SanityClient (list call) :=
  {| fetch := fun query st => (inr docs, (st ++ [Fetch query])%list);
     patch_commit := fun id patches st =>
       (failing id, (st ++ [Commit id patches])%list) |}.

(** ** Notions used in the statements *)

(** The estimate the run adds up: 20 bytes for every reference of a
    converted group, in strong-to-weak mode only. *)
Definition estimate (mode : conversion) (groups : list ReferenceGroup) : nat :=
  if conversion_eqb mode strong_to_weak
  then list_sum (map (fun g => List.length (references g) * 20) groups)
  else 0.

(** What the commits of a run answer, group after group, from the store
    state [st] on. *)
Fixpoint commit_outcomes {St : Type} (c : SanityClient St) (mode : conversion)
  (groups : list ReferenceGroup) (st : St) : list (option thrown) :=
  match groups with
  | [] => []
  | g :: rest =>
      let answer :=
        patch_commit c (get (document g) "_id")
          (build_patches mode (references g)) st in
      fst answer :: commit_outcomes c mode rest (snd answer)
  end.

(** The store after the commits of a run, group after group, from the
    store state [st] on. *)
Fixpoint commits_state {St : Type} (c : SanityClient St) (mode : conversion)
  (groups : list ReferenceGroup) (st : St) : St :=
  match groups with
  | [] => st
  | g :: rest =>
      commits_state c mode rest
        (snd (patch_commit c (get (document g) "_id")
                (build_patches mode (references g)) st))
  end.

(** The groups whose commit went through. *)
Fixpoint committed (groups : list ReferenceGroup)
  (answers : list (option thrown)) : list ReferenceGroup :=
  match groups, answers with
  | g :: rest, None :: more => g :: committed rest more
  | _ :: rest, Some _ :: more => committed rest more
  | _, _ => []
  end.

Fixpoint failure_messages (groups : list ReferenceGroup)
  (answers : list (option thrown)) : list string :=
  match groups, answers with
  | g :: rest, Some e :: more =>
      failure_message g e :: failure_messages rest more
  | _ :: rest, None :: more => failure_messages rest more
  | _, _ => []
  end.

(** The text the finder appends after a non-empty path. *)
Fixpoint suffix (segs : list segment) : string :=
  match segs with
  | [] => ""
  | Key key :: rest => "." ++ key ++ suffix rest
  | Index index :: rest => "[" ++ string_of_nat index ++ "]" ++ suffix rest
  end.

Fixpoint plain_segs (segs : list segment) : bool :=
  match segs with
  | [] => true
  | Key key :: rest => plain_key key && plain_segs rest
  | Index _ :: rest => plain_segs rest
  end.

(** A value that is no descriptor and holds none. *)
Definition clean (x : value) : Prop :=
  is_reference x = false /\ sites_in x = [].

Definition container (v : value) : bool :=
  match v with
  | VObj _ | VArr _ => true
  | _ => false
  end.

(** [focus d segs v]: the descriptor [d] sits in [v] at the position
    [segs], and it is the only one in [v]: everything beside the way to it
    is clean, and so is everything inside it. *)
Inductive focus (d : value) : list segment -> value -> Prop :=
| focus_field before key after :
    Forall (fun kv => clean (snd kv)) before ->
    Forall (fun kv => clean (snd kv)) after ->
    is_reference d = true -> sites_in d = [] ->
    focus d [Key key] (VObj (before ++ (key, d) :: after))
| focus_in_field before key x after segs :
    Forall (fun kv => clean (snd kv)) before ->
    Forall (fun kv => clean (snd kv)) after ->
    is_reference x = false -> segs <> [] ->
    focus d segs x ->
    focus d (Key key :: segs) (VObj (before ++ (key, x) :: after))
| focus_item before after :
    Forall clean before -> Forall clean after ->
    is_reference d = true -> sites_in d = [] ->
    focus d [Index (List.length before)] (VArr (before ++ d :: after))
| focus_in_item before x after segs :
    Forall clean before -> Forall clean after ->
    is_reference x = false -> segs <> [] ->
    focus d segs x ->
    focus d (Index (List.length before) :: segs)
      (VArr (before ++ x :: after)).

(** No closing bracket among the characters. *)
Fixpoint no_close (s : string) : bool :=
  match s with
  | "" => true
  | String c rest => negb (Ascii.eqb c "]") && no_close rest
  end.

(** Where a path may go on: at its end, at a dot or at a bracket. *)
Definition at_boundary (s : string) : bool :=
  match s with
  | "" => true
  | String c _ => Ascii.eqb c "." || Ascii.eqb c "["
  end.

(** The results handed to [onComplete], and the messages, of a trace. *)
Fixpoint completions (evs : list event) : list ConversionResult :=
  match evs with
  | [] => []
  | onComplete r :: rest => r :: completions rest
  | _ :: rest => completions rest
  end.

Fixpoint messages (evs : list event) : list string :=
  match evs with
  | [] => []
  | setMessage text :: rest => text :: messages rest
  | _ :: rest => messages rest
  end.

(** The test that selects a property value in each mode (lines 119 and
    127 of the source), and the entry pushed for it. *)
Definition selected (mode : conversion) (v : value) : bool :=
  match mode with
  | strong_to_weak => is_reference v
  | weak_to_strong => is_reference v && truthy (get v "_weak")
  end.

Definition entry (mode : conversion) (p : string) (v : value) : reference :=
  match mode with
  | strong_to_weak =>
      {| path := p; type := strong; ref := get v "_ref";
         weak := js_or (get v "_weak") (VBool false) |}
  | weak_to_strong =>
      {| path := p; type := weak_ref; ref := get v "_ref";
         weak := VBool true |}
  end.

(** ** Further notions: the whole traversal, and what the panel shows *)

(** [reach mode d segs v]: the traversal of [v] arrives at [d], a
    property value that the mode selects, along [segs]: through array
    elements, and through property values that it does not select. *)
Inductive reach (mode : conversion) (d : value)
  : list segment -> value -> Prop :=
| reach_field fields key :
    In (key, d) fields -> selected mode d = true ->
    reach mode d [Key key] (VObj fields)
| reach_in_field fields key x segs :
    In (key, x) fields -> selected mode x = false ->
    reach mode d segs x ->
    reach mode d (Key key :: segs) (VObj fields)
| reach_in_item items index x segs :
    nth_error items index = Some x ->
    reach mode d segs x ->
    reach mode d (Index index :: segs) (VArr items).

(** The kind of entry each mode pushes. *)
Definition strength_of (mode : conversion) : strength :=
  match mode with
  | strong_to_weak => strong
  | weak_to_strong => weak_ref
  end.

(** [strongRefs.reduce((sum, item) => sum + item.refCount, 0)]: the
    references badge of the results panel. *)
Definition references_badge (strongRefs : list ReferenceGroup) : nat :=
  fold_left (fun sum item => sum + refCount item) strongRefs 0.

(** [strongRefs.slice(0, 10)]: the documents listed in the panel. *)
Definition listed (strongRefs : list ReferenceGroup) : list ReferenceGroup :=
  js_slice strongRefs 0 10.

(** [strongRefs.length > 10 && ...and {strongRefs.length - 10} more]: the
    number in the line under the list, when the line is shown. *)
Definition more_documents (strongRefs : list ReferenceGroup) : option nat :=
  if (10 <? List.length strongRefs)%nat
  then Some (List.length strongRefs - 10)
  else None.

Definition is_message (e : event) : bool :=
  match e with
  | setMessage _ => true
  | _ => false
  end.

(** The commits a run over [groups] asks of the store. *)
Definition commits_of (mode : conversion) (groups : list ReferenceGroup)
  : list call :=
  map (fun g => Commit (get (document g) "_id")
                  (build_patches mode (references g))) groups.

(** * Properties *)

(** ** Text *)

Lemma append_assoc (a b c : string) : (a ++ b) ++ c = a ++ (b ++ c).
Proof.
  induction a as [|ch a IH]; simpl; [reflexivity | now rewrite IH].
Qed.

Lemma append_empty_r (a : string) : a ++ "" = a.
Proof.
  induction a as [|ch a IH]; simpl; [reflexivity | now rewrite IH].
Qed.

Lemma append_nonempty_r (a b : string) : b <> "" -> a ++ b <> "".
Proof.
  destruct a; simpl; [easy | discriminate].
Qed.

Lemma indexPath_nonempty (p : string) (i : nat) :
  String.eqb (indexPath p i) "" = false.
Proof.
  apply String.eqb_neq. unfold indexPath.
  apply append_nonempty_r. discriminate.
Qed.

(** ** The finder *)

Lemma findReferences_obj fields mode p :
  findReferences (VObj fields) mode p
  = forEach_keys (visit_field (fun v q => findReferences v mode q) mode p)
      fields.
Proof. reflexivity. Qed.

Lemma findReferences_arr items mode p :
  findReferences (VArr items) mode p
  = forEach_items (fun item index => findReferences item mode (indexPath p index))
      items 0.
Proof. reflexivity. Qed.

Lemma visit_field_cases recurse mode p k v :
  visit_field recurse mode p k v
  = if truthy v && typeof_object v then
      if selected mode v then [entry mode (currentPath p k) v]
      else recurse v (currentPath p k)
    else [].
Proof.
  unfold visit_field, selected, entry.
  destruct (truthy v && typeof_object v); [|reflexivity].
  destruct mode; simpl; destruct (is_reference v); simpl; try reflexivity.
Qed.

Lemma is_reference_object (v : value) :
  is_reference v = true -> exists fields, v = VObj fields.
Proof.
  destruct v; try discriminate. intros _. now eexists.
Qed.

Lemma selected_is_reference mode v :
  selected mode v = true -> is_reference v = true.
Proof.
  destruct mode; simpl; [easy|]. intros H.
  now apply andb_true_iff in H.
Qed.

Lemma forEach_keys_In {A : Type} (f : string -> value -> list A) fields k x o :
  In (k, x) fields -> In o (f k x) -> In o (forEach_keys f fields).
Proof.
  induction fields as [|[k' x'] rest IH]; simpl; [easy|].
  intros [Heq | Hin] Ho; apply in_or_app.
  - injection Heq as -> ->. now left.
  - right. now apply IH.
Qed.

Lemma forEach_items_nth {A : Type} (f : value -> nat -> list A) items :
  forall start i x o,
    nth_error items i = Some x -> In o (f x (start + i)) ->
    In o (forEach_items f items start).
Proof.
  induction items as [|y rest IH]; intros start i x o Hnth Ho.
  - now destruct i.
  - simpl. apply in_or_app. destruct i as [|i]; simpl in Hnth.
    + injection Hnth as ->. left. now rewrite Nat.add_0_r in Ho.
    + right. apply (IH (S start) i x); [assumption|].
      now rewrite Nat.add_succ_comm.
Qed.

(** What the finder pushes for a selected property value. *)
Lemma selected_field_found mode p k d fields :
  In (k, d) fields -> selected mode d = true ->
  In (entry mode (currentPath p k) d) (findReferences (VObj fields) mode p).
Proof.
  intros Hin Hsel.
  destruct (is_reference_object d (selected_is_reference _ _ Hsel))
    as [fs ->].
  rewrite findReferences_obj. eapply forEach_keys_In; [exact Hin|].
  rewrite visit_field_cases, Hsel. simpl. now left.
Qed.

Lemma entry_path mode p v : path (entry mode p v) = p.
Proof. now destruct mode. Qed.

Lemma entry_ref mode p v : ref (entry mode p v) = get v "_ref".
Proof. now destruct mode. Qed.

(** C1: in strong-to-weak mode the test of the finder does not look at
    the weak marker: a descriptor that already carries [_weak: true] is
    pushed, as a ['strong'] entry whose [weak] field is [true]. *)
Theorem C1_weak_descriptor_is_emitted :
  findReferences
    (VObj [("_id", VStr "post-1");
           ("author",
            VObj [("_type", VStr "reference"); ("_ref", VStr "person-1");
                  ("_weak", VBool true)])])
    strong_to_weak ""
  = [ {| path := "author"; type := strong; ref := VStr "person-1";
         weak := VBool true |} ].
Proof. reflexivity. Qed.

(** C8: a reference that sits in a field [k2] of the [i]-th element of
    the array held by field [k] is reported under the path
    [k[i].k2] (after the path of the enclosing object, if any): brackets
    for the array position, a dot before the inner key. *)
Theorem C8_array_in_object_path :
  forall mode prefix fields k elems i efields k2 d,
    In (k, VArr elems) fields ->
    nth_error elems i = Some (VObj efields) ->
    In (k2, d) efields ->
    selected mode d = true ->
    exists o,
      In o (findReferences (VObj fields) mode prefix)
      /\ path o = currentPath prefix k ++ "[" ++ string_of_nat i ++ "]." ++ k2
      /\ ref o = get d "_ref".
Proof.
  intros mode prefix fields k elems i efields k2 d Hk Hi Hk2 Hsel.
  exists (entry mode (currentPath (indexPath (currentPath prefix k) i) k2) d).
  split; [|split].
  - rewrite findReferences_obj. eapply forEach_keys_In; [exact Hk|].
    rewrite visit_field_cases.
    replace (selected mode (VArr elems)) with false by (now destruct mode).
    simpl. eapply forEach_items_nth; [exact Hi|].
    now apply selected_field_found.
  - rewrite entry_path. unfold currentPath at 1.
    rewrite indexPath_nonempty. unfold indexPath.
    now rewrite !append_assoc.
  - apply entry_ref.
Qed.

Lemma C8_array_in_object_path_witness :
  exists o,
    In o (findReferences
            (VObj [("_id", VStr "doc-1");
                   ("items",
                    VArr [VObj [("title", VStr "first")];
                          VObj [("linked",
                                 VObj [("_type", VStr "reference");
                                       ("_ref", VStr "target-1")])]])])
            strong_to_weak "")
    /\ path o = "items[1].linked"
    /\ ref o = VStr "target-1".
Proof.
  apply (C8_array_in_object_path strong_to_weak ""
           [("_id", VStr "doc-1");
            ("items",
             VArr [VObj [("title", VStr "first")];
                   VObj [("linked",
                          VObj [("_type", VStr "reference");
                                ("_ref", VStr "target-1")])]])]
           "items"
           [VObj [("title", VStr "first")];
            VObj [("linked",
                   VObj [("_type", VStr "reference");
                         ("_ref", VStr "target-1")])]]
           1
           [("linked",
             VObj [("_type", VStr "reference"); ("_ref", VStr "target-1")])]
           "linked"
           (VObj [("_type", VStr "reference"); ("_ref", VStr "target-1")])).
  - simpl. right. left. reflexivity.
  - reflexivity.
  - simpl. left. reflexivity.
  - reflexivity.
Defined.

(** ** Scan *)

Lemma refsToConvert_spec mode docs g :
  In g (refsToConvert mode docs) ->
  In (document g) docs
  /\ references g = findReferences (document g) mode ""
  /\ references g <> [].
Proof.
  induction docs as [|doc rest IH]; simpl; [easy|].
  destruct (findReferences doc mode "") as [|r refs] eqn:Hfind; simpl.
  - intros Hin. destruct (IH Hin) as (H1 & H2 & H3). auto.
  - intros [<- | Hin]; simpl.
    + rewrite Hfind. repeat split; auto. discriminate.
    + destruct (IH Hin) as (H1 & H2 & H3). auto.
Qed.

(** C9: every group that a scan hands to [setStrongRefs] holds the
    references the finder returned for its document, and they are not
    empty; a fetched document for which the finder returns nothing is the
    document of no group. *)
Theorem C9_scan_groups_nonempty :
  forall (St : Type) (client : option (SanityClient St)) maxDocuments
         selectedType searchQuery useCustomQuery customGroqQuery mode
         (st : St) groups,
    In (setStrongRefs groups)
       (events (scanForReferences client maxDocuments selectedType
                  searchQuery useCustomQuery customGroqQuery mode st)) ->
    forall g, In g groups ->
      references g <> []
      /\ references g = findReferences (document g) mode ""
      /\ (forall doc, findReferences doc mode "" = [] -> document g <> doc).
Proof.
  intros St client maxDocuments selectedType searchQuery useCustomQuery
    customGroqQuery mode st groups Hev g Hg.
  unfold scanForReferences in Hev.
  destruct client as [c|]; [|contradiction].
  destruct (fetch c _ st) as [[e | docs] st']; simpl in Hev.
  - repeat (destruct Hev as [Hev | Hev]; [discriminate|]). contradiction.
  - destruct Hev as [Hev | [Hev | [Hev | [Hev | Hev]]]]; try discriminate.
    + injection Hev as <-.
      destruct (refsToConvert_spec mode docs g Hg) as (_ & Href & Hne).
      repeat split; auto.
      intros doc Hnone Heq. apply Hne. now rewrite Href, Heq.
    + repeat (destruct Hev as [Hev | Hev]; [discriminate|]). contradiction.
Qed.

Lemma C9_scan_groups_nonempty_witness :
  let doc :=
    VObj [("_id", VStr "post-1");
          ("author",
           VObj [("_type", VStr "reference"); ("_ref", VStr "person-1")])] in
  let g :=
    {| document := doc;
       references := findReferences doc strong_to_weak "";
       refCount := 1 |} in
  references g <> []
  /\ references g = findReferences (document g) strong_to_weak ""
  /\ (forall d, findReferences d strong_to_weak "" = [] -> document g <> d).
Proof.
  intros doc g.
  apply (C9_scan_groups_nonempty (list call)
           (Some (recording_client [doc; VObj [("_id", VStr "tag-1")]]
                    (fun _ => None)))
           1000%Z "" "" false "" strong_to_weak [] [g]).
  - simpl. right. right. right. left. reflexivity.
  - simpl. left. reflexivity.
Defined.

(** ** The batch loop *)

Lemma js_slice_window {A : Type} (l : list A) (i size : Z) :
  (0 <= i < Z.of_nat (List.length l))%Z -> (1 <= size)%Z ->
  js_slice l i (i + size) = firstn (Z.to_nat size) (skipn (Z.to_nat i) l).
Proof.
  intros Hi Hsize. unfold js_slice.
  destruct (Z.ltb_spec i 0) as [?|_]; [lia|].
  destruct (Z.ltb_spec (i + size) 0) as [?|_]; [lia|].
  rewrite (Z.min_l i) by lia.
  destruct (Z.le_gt_cases (i + size) (Z.of_nat (List.length l))) as [Hin | Hout].
  - rewrite Z.min_l by lia. f_equal. lia.
  - rewrite Z.min_r by lia.
    rewrite !firstn_all2; [reflexivity | |]; rewrite length_skipn; lia.
Qed.

Section Loop.
Context {St : Type}.
Variable c : SanityClient St.
Variable batchSize : Z.
Variable dryRun : bool.
Variable mode : conversion.
Variable groups : list ReferenceGroup.

Let len := Z.of_nat (List.length groups).

(** The loop processes the batches it takes, one after the other. *)
Lemma convert_loop_batches fuel : forall i p log,
  fst (so_far (convert_loop batchSize dryRun mode groups fuel c i p log))
  = fold_left (convert_batch dryRun mode c)
      (batches batchSize groups fuel i) p.
Proof.
  induction fuel as [|fuel IH]; intros i p log; simpl; [reflexivity|].
  destruct (i <? Z.of_nat (List.length groups))%Z; simpl; [|reflexivity].
  apply IH.
Qed.

(** One message per batch, and nothing else, is added to the log. *)
Lemma convert_loop_log fuel : forall i p log,
  let log' :=
    snd (so_far (convert_loop batchSize dryRun mode groups fuel c i p log)) in
  List.length (messages log')
  = List.length (messages log)
    + List.length (batches batchSize groups fuel i)
  /\ completions log' = completions log
  /\ exists more, log' = (log ++ more)%list.
Proof.
  assert (Hm : forall l (e : @progress St), messages (l ++ [batch_message dryRun groups e])
                 = (messages l
                    ++ messages [batch_message dryRun groups e])%list).
  { induction l as [|x l IHl]; intros e; [reflexivity|].
    destruct x; simpl; rewrite IHl; reflexivity. }
  assert (Hc : forall l (e : @progress St), completions (l ++ [batch_message dryRun groups e])
                 = completions l).
  { induction l as [|x l IHl]; intros e; [reflexivity|].
    destruct x; simpl; rewrite IHl; reflexivity. }
  induction fuel as [|fuel IH]; intros i p log; simpl.
  - repeat split; [lia|]. exists []. now rewrite app_nil_r.
  - destruct (i <? Z.of_nat (List.length groups))%Z; simpl.
    + destruct (IH (i + batchSize)%Z
                  (convert_batch dryRun mode c p
                     (js_slice groups i (i + batchSize)))
                  (log ++ [batch_message dryRun groups
                             (convert_batch dryRun mode c p
                                (js_slice groups i (i + batchSize)))])%list)
        as (H1 & H2 & more & H3).
      rewrite H1, H2, Hm, Hc, H3, length_app. simpl.
      repeat split; [lia|]. eexists. now rewrite <- app_assoc.
    + repeat split; [lia|]. exists []. now rewrite app_nil_r.
Qed.

Hypothesis size_positive : (1 <= batchSize)%Z.

(** With a positive batch size the loop ends. *)
Lemma convert_loop_returns fuel : forall i p log,
  (0 <= i)%Z -> (Z.max 0 (len - i) < Z.of_nat fuel)%Z ->
  returned (convert_loop batchSize dryRun mode groups fuel c i p log) = true.
Proof.
  induction fuel as [|fuel IH]; intros i p log Hi Hfuel; simpl; [lia|].
  destruct (Z.ltb_spec i (Z.of_nat (List.length groups))); [|reflexivity].
  apply IH; subst len; lia.
Qed.

(** The batches are consecutive windows of [batchSize] groups. *)
Lemma batches_nth fuel : forall i k b,
  (0 <= i)%Z ->
  nth_error (batches batchSize groups fuel i) k = Some b ->
  b = firstn (Z.to_nat batchSize)
        (skipn (Z.to_nat i + k * Z.to_nat batchSize) groups)
  /\ (Z.to_nat i + k * Z.to_nat batchSize < List.length groups)%nat.
Proof.
  induction fuel as [|fuel IH]; intros i k b Hi Hk; simpl in Hk.
  - now destruct k.
  - destruct (Z.ltb_spec i (Z.of_nat (List.length groups))) as [Hlt|];
      [|now destruct k].
    destruct k as [|k]; simpl in Hk.
    + injection Hk as <-. rewrite js_slice_window by lia.
      rewrite Nat.add_0_r. split; [reflexivity | lia].
    + destruct (IH (i + batchSize)%Z k b ltac:(lia) Hk) as [Hb Hlen].
      replace (Z.to_nat i + S k * Z.to_nat batchSize)%nat
        with (Z.to_nat (i + batchSize) + k * Z.to_nat batchSize)%nat by lia.
      now split.
Qed.

(** Together they are the groups from [i] on, in order, each once. *)
Lemma batches_concat fuel : forall i,
  (0 <= i)%Z -> (len - i < Z.of_nat fuel)%Z ->
  List.concat (batches batchSize groups fuel i) = skipn (Z.to_nat i) groups.
Proof.
  induction fuel as [|fuel IH]; intros i Hi Hfuel; simpl.
  - subst len. rewrite skipn_all2; [reflexivity | lia].
  - destruct (Z.ltb_spec i (Z.of_nat (List.length groups))) as [Hlt|Hge].
    + simpl. rewrite IH by (subst len; lia).
      rewrite js_slice_window by lia.
      replace (Z.to_nat (i + batchSize))
        with (Z.to_nat batchSize + Z.to_nat i)%nat by lia.
      rewrite <- skipn_skipn. apply firstn_skipn.
    + rewrite skipn_all2; [reflexivity | lia].
Qed.

Lemma batches_nonempty fuel : forall i b,
  (0 <= i)%Z -> In b (batches batchSize groups fuel i) ->
  (1 <= List.length b <= Z.to_nat batchSize)%nat.
Proof.
  intros i b Hi Hin. apply In_nth_error in Hin as [k Hk].
  destruct (batches_nth fuel i k b Hi Hk) as [-> Hlt].
  rewrite length_firstn, length_skipn. lia.
Qed.
End Loop.

Lemma fold_batches_concat {St : Type} dryRun mode (c : SanityClient St)
  (bs : list (list ReferenceGroup)) : forall p,
  fold_left (convert_batch dryRun mode c) bs p
  = fold_left (convert_item dryRun mode c) (List.concat bs) p.
Proof.
  induction bs as [|b bs IH]; intros p; simpl; [reflexivity|].
  rewrite fold_left_app. apply IH.
Qed.

(** ** The groups of a run, one after the other *)

Section Items.
Context {St : Type}.
Variable c : SanityClient St.
Variable mode : conversion.

Lemma estimate_cons g rest :
  estimate mode (g :: rest)
  = (if conversion_eqb mode strong_to_weak
     then List.length (references g) * 20 else 0) + estimate mode rest.
Proof.
  unfold estimate. now destruct (conversion_eqb mode strong_to_weak).
Qed.

(** A dry run touches nothing and counts every group. *)
Lemma dry_items groups : forall p,
  let p' := fold_left (convert_item true mode c) groups p in
  count p' = count p + List.length groups
  /\ failures p' = failures p
  /\ saved p' = saved p + estimate mode groups
  /\ current p' = current p.
Proof.
  induction groups as [|g rest IH]; intros p; cbv zeta.
  - cbn [fold_left List.length]. unfold estimate.
    destruct (conversion_eqb mode strong_to_weak); simpl; repeat split; lia.
  - cbn [fold_left List.length].
    destruct (IH (convert_item true mode c p g)) as (H1 & H2 & H3 & H4).
    rewrite H1, H2, H3, H4, estimate_cons.
    unfold convert_item, succeed. cbn [count failures saved current].
    destruct (conversion_eqb mode strong_to_weak); repeat split; lia.
Qed.

(** A real run counts the groups whose commit went through, and has one
    message for each of the others. *)
Lemma committed_items groups : forall p,
  let answers := commit_outcomes c mode groups (current p) in
  let p' := fold_left (convert_item false mode c) groups p in
  count p' = count p + List.length (committed groups answers)
  /\ failures p' = (failures p ++ failure_messages groups answers)%list
  /\ saved p' = saved p + estimate mode (committed groups answers).
Proof.
  induction groups as [|g rest IH]; intros p; cbv zeta.
  - cbn [fold_left commit_outcomes committed failure_messages List.length].
    rewrite app_nil_r. unfold estimate.
    destruct (conversion_eqb mode strong_to_weak); simpl; repeat split; lia.
  - cbn [fold_left commit_outcomes].
    destruct (IH (convert_item false mode c p g)) as (H1 & H2 & H3).
    rewrite H1, H2, H3. clear H1 H2 H3 IH.
    unfold convert_item.
    destruct (patch_commit c (get (document g) "_id")
                (build_patches mode (references g)) (current p))
      as [[e|] st']; cbn [fst snd committed failure_messages].
    + unfold fail. cbn [count failures saved current].
      rewrite <- app_assoc. repeat split; reflexivity.
    + unfold succeed. cbn [count failures saved current List.length].
      rewrite estimate_cons.
      destruct (conversion_eqb mode strong_to_weak); repeat split; lia.
Qed.

Lemma commit_outcomes_length groups : forall st,
  List.length (commit_outcomes c mode groups st) = List.length groups.
Proof.
  induction groups as [|g rest IH]; intros st; simpl; [easy|].
  now rewrite IH.
Qed.

Lemma committed_all groups answers :
  List.length answers = List.length groups ->
  Forall (fun a => a = None) answers ->
  committed groups answers = groups.
Proof.
  revert answers. induction groups as [|g rest IH]; intros [|a more];
    simpl; try easy.
  intros Hlen Hall. inversion Hall; subst. f_equal. apply IH; auto.
Qed.

Lemma all_commit_outcomes groups : forall st,
  (forall id patches s, fst (patch_commit c id patches s) = None) ->
  Forall (fun a => a = None) (commit_outcomes c mode groups st).
Proof.
  induction groups as [|g rest IH]; intros st Hok; simpl; constructor; auto.
Qed.

Lemma committed_one_failure before failing after e :
  committed (before ++ failing :: after)
    (repeat None (List.length before)
     ++ Some e :: repeat None (List.length after))
  = (before ++ after)%list.
Proof.
  induction before as [|g rest IH]; simpl.
  - apply committed_all; [now rewrite repeat_length|].
    apply Forall_forall. intros a Ha. now apply repeat_spec in Ha.
  - now rewrite IH.
Qed.

Lemma failure_messages_none groups :
  failure_messages groups (repeat None (List.length groups)) = [].
Proof. induction groups as [|g rest IH]; simpl; auto. Qed.

Lemma failure_messages_one before failing after e :
  failure_messages (before ++ failing :: after)
    (repeat None (List.length before)
     ++ Some e :: repeat None (List.length after))
  = [failure_message failing e].
Proof.
  induction before as [|g rest IH]; simpl; [|exact IH].
  now rewrite failure_messages_none.
Qed.
End Items.

(** ** A whole conversion run *)

Section Run.
Context {St : Type}.
Variable c : SanityClient St.
Variable batchSize : Z.
Variable dryRun : bool.
Variable mode : conversion.
Variable groups : list ReferenceGroup.
Variable st : St.

Let fuel := S (List.length groups).
Let final := fold_left (convert_item dryRun mode c) groups (start st).

(** With a positive batch size and at least one group the run ends: every
    group has gone through [convert_item], in order, and the result is
    handed to [onComplete] once, after one message per batch. *)
Lemma convert_run :
  (1 <= batchSize)%Z -> groups <> [] ->
  exists log,
    convertReferences (Some c) batchSize dryRun mode groups fuel st
    = Returned
        {| events :=
             (log ++ [setMessage (final_message dryRun (count final));
                      onComplete (result_of final);
                      setIsLoading false])%list;
           store := current final |}
    /\ completions log = []
    /\ List.length (messages log)
       = 1 + List.length (batches batchSize groups fuel 0).
Proof.
  intros Hsize Hne. unfold convertReferences.
  assert (Hlen : (List.length groups =? 0)%nat = false)
    by (now destruct groups).
  rewrite Hlen.
  pose proof (convert_loop_returns c batchSize dryRun mode groups Hsize fuel
                0%Z (start st)
                [setIsLoading true; setMessage "Converting references..."]
                ltac:(lia) ltac:(subst fuel; lia)) as Hret.
  pose proof (convert_loop_batches c batchSize dryRun mode groups fuel
                0%Z (start st)
                [setIsLoading true; setMessage "Converting references..."])
    as Hfst.
  pose proof (convert_loop_log c batchSize dryRun mode groups fuel
                0%Z (start st)
                [setIsLoading true; setMessage "Converting references..."])
    as Hlog.
  rewrite fold_batches_concat, batches_concat in Hfst
    by (try assumption; subst fuel; lia).
  change (skipn (Z.to_nat 0) groups) with groups in Hfst.
  fold fuel in Hret, Hfst, Hlog.
  destruct (convert_loop batchSize dryRun mode groups fuel c 0 (start st) _)
    as [[p log] | [p log]]; [|discriminate].
  simpl in Hfst, Hlog. destruct Hlog as (Hmsg & Hcompl & _).
  fold final in Hfst. subst p.
  exists log. repeat split; assumption.
Qed.
End Run.

Lemma completions_app (l1 l2 : list event) :
  completions (l1 ++ l2) = (completions l1 ++ completions l2)%list.
Proof.
  induction l1 as [|e l1 IH]; [reflexivity|].
  destruct e; simpl; now rewrite IH.
Qed.

Lemma messages_app (l1 l2 : list event) :
  messages (l1 ++ l2) = (messages l1 ++ messages l2)%list.
Proof.
  induction l1 as [|e l1 IH]; [reflexivity|].
  destruct e; simpl; now rewrite IH.
Qed.

(** *** The commits and the progress messages of a run *)

Lemma items_store {St : Type} (c : SanityClient St) mode groups : forall p,
  current (fold_left (convert_item false mode c) groups p)
  = commits_state c mode groups (current p).
Proof.
  induction groups as [|g rest IH]; intros p; simpl; [reflexivity|].
  rewrite IH. unfold convert_item.
  now destruct (patch_commit c (get (document g) "_id")
                  (build_patches mode (references g)) (current p))
    as [[e|] st'].
Qed.

Lemma commits_state_app {St : Type} (c : SanityClient St) mode l1 l2 :
  forall st,
    commits_state c mode (l1 ++ l2) st
    = commits_state c mode l2 (commits_state c mode l1 st).
Proof.
  induction l1 as [|g rest IH]; intros st; simpl; [reflexivity|]. apply IH.
Qed.

Lemma firstn_plus {A : Type} (n m : nat) : forall l : list A,
  firstn (n + m) l = (firstn n l ++ firstn m (skipn n l))%list.
Proof.
  induction n as [|n IH]; intros [|x l]; simpl;
    rewrite ?firstn_nil; try reflexivity.
  now rewrite IH.
Qed.

(** The message after each round tells the state after the groups of all
    rounds so far: round [k] ends after the first [(k + 1) * batchSize]
    of the groups that were left. *)
Lemma convert_loop_progress {St : Type} (c : SanityClient St) batchSize
  dryRun mode groups fuel :
  (1 <= batchSize)%Z ->
  forall i p log,
    (0 <= i)%Z ->
    exists more,
      snd (so_far (convert_loop batchSize dryRun mode groups fuel c i p log))
      = (log ++ more)%list
      /\ List.length more = List.length (batches batchSize groups fuel i)
      /\ forall k,
           (k < List.length more)%nat ->
           nth_error more k
           = Some (batch_message dryRun groups
                     (fold_left (convert_item dryRun mode c)
                        (firstn ((k + 1) * Z.to_nat batchSize)
                           (skipn (Z.to_nat i) groups))
                        p)).
Proof.
  intros Hsize. induction fuel as [|fuel IH]; intros i p log Hi; simpl.
  - exists []. rewrite app_nil_r. repeat split; auto.
    intros k Hk. simpl in Hk. lia.
  - destruct (Z.ltb_spec i (Z.of_nat (List.length groups))) as [Hlt | Hge].
    + rewrite js_slice_window by lia.
      set (batch := firstn (Z.to_nat batchSize) (skipn (Z.to_nat i) groups)).
      destruct (IH (i + batchSize)%Z (convert_batch dryRun mode c p batch)
                  (log ++ [batch_message dryRun groups
                             (convert_batch dryRun mode c p batch)])%list
                  ltac:(lia))
        as (more & Hlog & Hlen & Hnth).
      exists (batch_message dryRun groups (convert_batch dryRun mode c p batch)
              :: more).
      rewrite Hlog, <- app_assoc. cbn [app List.length].
      split; [reflexivity|]. split; [now rewrite Hlen|].
      intros [|k] Hk; cbn [nth_error].
      * rewrite Nat.mul_1_l. reflexivity.
      * rewrite Hnth by lia. do 2 f_equal.
        replace ((S k + 1) * Z.to_nat batchSize)%nat
          with (Z.to_nat batchSize + (k + 1) * Z.to_nat batchSize)%nat by lia.
        rewrite firstn_plus, fold_left_app, skipn_skipn.
        replace (Z.to_nat (i + batchSize))
          with (Z.to_nat batchSize + Z.to_nat i)%nat by lia.
        reflexivity.
    + exists []. rewrite app_nil_r. repeat split; auto.
      intros k Hk. simpl in Hk. lia.
Qed.

Lemma last_of_run {A : Type} (l : list A) (a b c d : A) :
  last (l ++ [a; b; c]) d = c.
Proof.
  change [a; b; c] with ([a; b] ++ [c])%list.
  rewrite app_assoc. apply last_last.
Qed.

(** The events of a run that ends, with its progress messages. *)
Lemma convert_run_events {St : Type} (c : SanityClient St) batchSize dryRun
  mode groups (st : St) :
  (1 <= batchSize)%Z -> groups <> [] ->
  let final := fold_left (convert_item dryRun mode c) groups (start st) in
  exists progress_messages,
    convertReferences (Some c) batchSize dryRun mode groups
      (S (List.length groups)) st
    = Returned
        {| events :=
             (setIsLoading true :: setMessage "Converting references..."
              :: progress_messages
              ++ [setMessage (final_message dryRun (count final));
                  onComplete (result_of final);
                  setIsLoading false])%list;
           store := current final |}
    /\ List.length progress_messages
       = List.length (batches batchSize groups (S (List.length groups)) 0)
    /\ forall k,
         (k < List.length progress_messages)%nat ->
         nth_error progress_messages k
         = Some (batch_message dryRun groups
                   (fold_left (convert_item dryRun mode c)
                      (firstn ((k + 1) * Z.to_nat batchSize) groups)
                      (start st))).
Proof.
  intros Hsize Hne final.
  pose proof (convert_loop_returns c batchSize dryRun mode groups Hsize
                (S (List.length groups)) 0%Z (start st)
                [setIsLoading true; setMessage "Converting references..."]
                ltac:(lia) ltac:(lia)) as Hret.
  pose proof (convert_loop_batches c batchSize dryRun mode groups
                (S (List.length groups)) 0%Z (start st)
                [setIsLoading true; setMessage "Converting references..."])
    as Hfst.
  rewrite fold_batches_concat, batches_concat in Hfst by (try assumption; lia).
  change (skipn (Z.to_nat 0) groups) with groups in Hfst.
  destruct (convert_loop_progress c batchSize dryRun mode groups
              (S (List.length groups)) Hsize 0%Z (start st)
              [setIsLoading true; setMessage "Converting references..."]
              ltac:(lia))
    as (more & Hlog & Hlen & Hnth).
  change (skipn (Z.to_nat 0) groups) with groups in Hnth.
  unfold convertReferences.
  replace (List.length groups =? 0)%nat with false by (now destruct groups).
  destruct (convert_loop batchSize dryRun mode groups (S (List.length groups))
              c 0 (start st) _) as [[p log] | [p log]]; [|discriminate].
  cbn [so_far fst snd] in Hfst, Hlog. subst p log. fold final.
  exists more. split; [|split; assumption].
  now rewrite <- app_assoc.
Qed.

(** C3: when the commit of exactly one group raises [e] and all the
    others go through, the run still ends and hands over its result; the
    errors are the one message ["Failed to convert <id>: <detail>"] for
    that group, and [converted] counts all the other groups.  The run
    does not stop at the failure: the store is the one left by the
    commits of all groups, those after the failing one included, each
    asked once and in order. *)
Theorem C3_one_failure_is_isolated :
  forall (St : Type) (c : SanityClient St) batchSize mode before failing after
         e (st : St),
    (1 <= batchSize)%Z ->
    commit_outcomes c mode (before ++ failing :: after) st
    = (repeat None (List.length before)
       ++ Some e :: repeat None (List.length after))%list ->
    exists r res,
      convertReferences (Some c) batchSize false mode
        (before ++ failing :: after)
        (S (List.length (before ++ failing :: after))) st
      = Returned r
      /\ completions (events r) = [res]
      /\ errors res
         = ["Failed to convert " ++ template (get (document failing) "_id")
            ++ ": " ++ error_message e "Conversion failed"]
      /\ converted res = List.length before + List.length after
      /\ store r
         = commits_state c mode after
             (snd (patch_commit c (get (document failing) "_id")
                     (build_patches mode (references failing))
                     (commits_state c mode before st)))
      /\ last (events r) (setIsLoading true) = setIsLoading false.
Proof.
  intros St c batchSize mode before failing after e st Hsize Hout.
  destruct (convert_run c batchSize false mode (before ++ failing :: after)
              st Hsize) as (log & Hrun & Hcompl & _).
  { now destruct before. }
  destruct (committed_items c mode (before ++ failing :: after) (start st))
    as (Hcount & Hfail & _).
  simpl current in Hcount, Hfail. rewrite Hout in Hcount, Hfail.
  rewrite committed_one_failure in Hcount.
  rewrite failure_messages_one in Hfail.
  eexists. eexists. split; [exact Hrun|]. cbn [events store].
  rewrite completions_app, Hcompl. cbn [completions app].
  split; [reflexivity|]. unfold result_of. cbn [errors converted].
  rewrite Hfail, Hcount, length_app.
  split; [reflexivity|]. split; [reflexivity|]. split.
  - rewrite items_store, commits_state_app. reflexivity.
  - apply last_of_run.
Qed.

Lemma C3_one_failure_is_isolated_witness :
  let ref1 :=
    {| path := "author"; type := strong; ref := VStr "person-1";
       weak := VBool false |} in
  let group id :=
    {| document :=
         VObj [("_id", VStr id);
               ("author",
                VObj [("_type", VStr "reference");
                      ("_ref", VStr "person-1")])];
       references := [ref1]; refCount := 1 |} in
  let c :=
    recording_client []
      (fun id => if is_string id "D" then Some (ThrowError "timeout")
                 else None) in
  let patch := [("author", weak_descriptor (VStr "person-1"))] in
  exists r res,
    convertReferences (Some c) 2 false strong_to_weak
      ([group "A"; group "B"] ++ group "D" :: [group "E"; group "F"]) 6 []
    = Returned r
    /\ completions (events r) = [res]
    /\ errors res = ["Failed to convert D: timeout"]
    /\ converted res = 4
    /\ store r
       = [Commit (VStr "A") patch; Commit (VStr "B") patch;
          Commit (VStr "D") patch; Commit (VStr "E") patch;
          Commit (VStr "F") patch]
    /\ last (events r) (setIsLoading true) = setIsLoading false.
Proof.
  intros ref1 group c patch.
  apply (C3_one_failure_is_isolated (list call) c 2 strong_to_weak
           [group "A"; group "B"] (group "D") [group "E"; group "F"]
           (ThrowError "timeout") []).
  - lia.
  - reflexivity.
Defined.

Lemma only_messages (evs : list event) :
  (forall k e, nth_error evs k = Some e -> is_message e = true) ->
  completions evs = [] /\ List.length (messages evs) = List.length evs.
Proof.
  induction evs as [|e rest IH]; intros Hall; [now split|].
  pose proof (Hall 0 e eq_refl) as He.
  destruct IH as [IH1 IH2].
  { intros k e' Hk. exact (Hall (S k) e' Hk). }
  destruct e; try discriminate. simpl. now rewrite IH2.
Qed.

Lemma batches_25_by_10 (groups : list ReferenceGroup) :
  List.length groups = 25 ->
  map (@List.length _) (batches 10 groups (S (List.length groups)) 0)
  = [10; 10; 5].
Proof.
  intros Hlen.
  do 26 (destruct groups as [|? groups]; try discriminate Hlen).
  reflexivity.
Qed.

(** C4: with a batch size of at least 1 the loop cuts the groups into
    consecutive batches: batch [k] is the window of [batchSize] groups
    that starts at [k * batchSize], the batches put together are the
    groups, in order and each once, and the run goes through them in that
    order, with one progress message per batch: the message of batch [k]
    tells the state after the first [(k + 1) * batchSize] groups, and a
    run that commits leaves the store of one commit per group, in order.
    For 25 groups and a batch size of 10 the batches have 10, 10 and 5
    groups, and when every commit goes through the progress messages
    read 10/25, 20/25, 25/25 and [converted] is 25 (one per document). *)
Theorem C4_consecutive_batches :
  forall (St : Type) (c : SanityClient St) batchSize dryRun mode groups
         (st : St),
    (1 <= batchSize)%Z ->
    let fuel := S (List.length groups) in
    let taken := batches batchSize groups fuel 0 in
    List.concat taken = groups
    /\ (forall k b, nth_error taken k = Some b ->
          b = firstn (Z.to_nat batchSize)
                (skipn (k * Z.to_nat batchSize) groups)
          /\ (1 <= List.length b <= Z.to_nat batchSize)%nat)
    /\ (groups <> [] ->
        exists r progress_messages,
          convertReferences (Some c) batchSize dryRun mode groups fuel st
          = Returned r
          /\ completions (events r)
             = [result_of
                  (fold_left (convert_batch dryRun mode c) taken (start st))]
          /\ List.length (messages (events r)) = 2 + List.length taken
          /\ events r
             = (setIsLoading true :: setMessage "Converting references..."
                :: progress_messages
                ++ [setMessage
                      (final_message dryRun
                         (count (fold_left (convert_item dryRun mode c)
                                   groups (start st))));
                    onComplete
                      (result_of (fold_left (convert_item dryRun mode c)
                                    groups (start st)));
                    setIsLoading false])%list
          /\ List.length progress_messages = List.length taken
          /\ (forall k,
                (k < List.length taken)%nat ->
                nth_error progress_messages k
                = Some (batch_message dryRun groups
                          (fold_left (convert_item dryRun mode c)
                             (firstn ((k + 1) * Z.to_nat batchSize) groups)
                             (start st))))
          /\ (dryRun = false -> store r = commits_state c mode groups st)
          /\ (List.length groups = 25 -> batchSize = 10%Z ->
              map (@List.length _) taken = [10; 10; 5]
              /\ ((dryRun = true
                   \/ forall id patches s,
                        fst (patch_commit c id patches s) = None) ->
                  (forall res, In res (completions (events r)) ->
                     converted res = 25)
                  /\ progress_messages
                     = map (fun text =>
                              setMessage
                                ((if dryRun then "Would convert"
                                  else "Converted") ++ text))
                         [" 10/25 documents..."; " 20/25 documents...";
                          " 25/25 documents..."]))).
Proof.
  intros St c batchSize dryRun mode groups st Hsize fuel taken.
  assert (Hconcat : List.concat taken = groups).
  { unfold taken. rewrite batches_concat by (try assumption; subst fuel; lia).
    reflexivity. }
  split; [exact Hconcat|]. split.
  - intros k b Hk. split.
    + now destruct (batches_nth batchSize groups Hsize fuel 0%Z k b
                      ltac:(lia) Hk).
    + apply (batches_nonempty batchSize groups Hsize fuel 0%Z b ltac:(lia)).
      eapply nth_error_In. exact Hk.
  - intros Hne.
    destruct (convert_run_events c batchSize dryRun mode groups st Hsize Hne)
      as (progress & Hrun & Hlen & Hnth).
    cbv zeta in Hrun. fold fuel in Hrun, Hlen. fold taken in Hlen.
    assert (Hcount :
              (dryRun = true
               \/ forall id patches s,
                    fst (patch_commit c id patches s) = None) ->
              forall l p,
                count (fold_left (convert_item dryRun mode c) l p)
                = count p + List.length l).
    { intros Hok l p. destruct dryRun.
      - now destruct (dry_items c mode l p) as (-> & _).
      - destruct Hok as [Hok | Hok]; [discriminate|].
        destruct (committed_items c mode l p) as (-> & _).
        rewrite committed_all;
          [reflexivity | apply commit_outcomes_length
           | now apply all_commit_outcomes]. }
    assert (Hall : forall k e, nth_error progress k = Some e ->
                               is_message e = true).
    { intros k e Hk. rewrite Hnth in Hk
        by (apply nth_error_Some; now rewrite Hk).
      now injection Hk as <-. }
    destruct (only_messages progress Hall) as [Hnone Hmsgs].
    eexists. exists progress. split; [exact Hrun|]. cbn [events store].
    change (setIsLoading true :: setMessage "Converting references..."
            :: progress ++ ?tl)%list
      with ([setIsLoading true; setMessage "Converting references..."]
            ++ progress ++ tl)%list.
    split.
    { rewrite fold_batches_concat, Hconcat.
      rewrite !completions_app, Hnone. reflexivity. }
    split.
    { rewrite !messages_app, !length_app, Hmsgs, Hlen. simpl. lia. }
    split; [reflexivity|]. split; [exact Hlen|]. split.
    { intros k Hk. apply Hnth. now rewrite Hlen. }
    split.
    { intros ->. apply items_store. }
    intros H25 H10. split.
    + unfold taken, fuel. rewrite H10. now apply batches_25_by_10.
    + intros Hok. split.
      * rewrite !completions_app, Hnone. cbn [completions app].
        intros res [<- | []]. unfold result_of. cbn [converted].
        rewrite (Hcount Hok). simpl. exact H25.
      * assert (Hthree : List.length progress = 3).
        { rewrite Hlen. unfold taken, fuel. rewrite H10.
          rewrite <- (length_map (@List.length _)).
          now rewrite batches_25_by_10. }
        pose proof (Hnth 0 ltac:(lia)) as H0.
        pose proof (Hnth 1 ltac:(lia)) as H1.
        pose proof (Hnth 2 ltac:(lia)) as H2.
        destruct progress as [|m0 [|m1 [|m2 [|m3 rest]]]];
          try discriminate Hthree.
        cbn [nth_error] in H0, H1, H2.
        injection H0 as ->. injection H1 as ->. injection H2 as ->.
        unfold batch_message. rewrite !(Hcount Hok), !length_firstn, H25, H10.
        reflexivity.
Qed.

Lemma C4_consecutive_batches_witness :
  let group n :=
    {| document := VObj [("_id", VStr (string_of_nat n))];
       references :=
         [ {| path := "author"; type := strong; ref := VStr "person-1";
              weak := VBool false |} ];
       refCount := 1 |} in
  let groups := map group (seq 0 25) in
  let c := recording_client [] (fun _ => None) in
  let taken := batches 10 groups 26 0 in
  List.concat taken = groups
  /\ (forall k b, nth_error taken k = Some b ->
        b = firstn 10 (skipn (k * 10) groups)
        /\ (1 <= List.length b <= 10)%nat)
  /\ (groups <> [] ->
      exists r progress_messages,
        convertReferences (Some c) 10 false strong_to_weak groups 26 []
        = Returned r
        /\ completions (events r)
           = [result_of
                (fold_left (convert_batch false strong_to_weak c)
                   taken (start []))]
        /\ List.length (messages (events r)) = 2 + List.length taken
        /\ events r
           = (setIsLoading true :: setMessage "Converting references..."
              :: progress_messages
              ++ [setMessage
                    (final_message false
                       (count (fold_left (convert_item false strong_to_weak c)
                                 groups (start []))));
                  onComplete
                    (result_of (fold_left (convert_item false strong_to_weak c)
                                  groups (start [])));
                  setIsLoading false])%list
        /\ List.length progress_messages = List.length taken
        /\ (forall k,
              (k < List.length taken)%nat ->
              nth_error progress_messages k
              = Some (batch_message false groups
                        (fold_left (convert_item false strong_to_weak c)
                           (firstn ((k + 1) * 10) groups) (start []))))
        /\ (false = false ->
            store r = commits_state c strong_to_weak groups [])
        /\ (List.length groups = 25 -> 10%Z = 10%Z ->
            map (@List.length _) taken = [10; 10; 5]
            /\ ((false = true
                 \/ forall id patches s,
                      fst (patch_commit c id patches s) = None) ->
                (forall res, In res (completions (events r)) ->
                   converted res = 25)
                /\ progress_messages
                   = map (fun text => setMessage ("Converted" ++ text))
                       [" 10/25 documents..."; " 20/25 documents...";
                        " 25/25 documents..."]))).
Proof.
  intros group groups c taken.
  apply (C4_consecutive_batches (list call) c 10 false strong_to_weak
           groups []).
  lia.
Defined.

(** C5: a dry run leaves the store as it is, whatever the client (no
    patch, no commit), and the result it hands over has [converted] equal
    to the number of groups and [spaceSaved] equal to the estimate for all
    of them, the value a run with [dryRun = false] whose commits all go
    through computes for the same groups. *)
Theorem C5_dry_run_changes_nothing :
  forall (St : Type) (c : SanityClient St) batchSize mode groups (st : St),
    (1 <= batchSize)%Z ->
    exists r,
      convertReferences (Some c) batchSize true mode groups
        (S (List.length groups)) st = Returned r
      /\ store r = st
      /\ (groups <> [] -> exists res, completions (events r) = [res])
      /\ forall res, In res (completions (events r)) ->
           converted res = List.length groups
           /\ errors res = []
           /\ spaceSaved res = estimate mode groups
           /\ forall (St' : Type) (c' : SanityClient St') (st' : St'),
                (forall id patches s,
                   fst (patch_commit c' id patches s) = None) ->
                exists r' res',
                  convertReferences (Some c') batchSize false mode groups
                    (S (List.length groups)) st' = Returned r'
                  /\ completions (events r') = [res']
                  /\ converted res' = converted res
                  /\ spaceSaved res' = spaceSaved res.
Proof.
  intros St c batchSize mode groups st Hsize.
  destruct groups as [|g0 rest] eqn:Hgroups.
  { eexists. split; [reflexivity|]. cbn [store events completions].
    split; [reflexivity|]. split; [intros Hne; now contradiction Hne|].
    intros res []. }
  rewrite <- Hgroups.
  assert (Hne : groups <> []) by (rewrite Hgroups; discriminate).
  clear Hgroups g0 rest.
  destruct (convert_run c batchSize true mode groups st Hsize Hne)
    as (log & Hrun & Hcompl & _).
  destruct (dry_items c mode groups (start st))
    as (Hcount & Hfail & Hsaved & Hcur).
  eexists. split; [exact Hrun|]. cbn [events store].
  rewrite completions_app, Hcompl. cbn [completions app].
  split; [exact Hcur|]. split; [intros _; now eexists|].
  intros res [<- | []].
  unfold result_of. cbn [converted errors spaceSaved].
  rewrite Hcount, Hfail, Hsaved.
  split; [reflexivity|]. split; [reflexivity|]. split; [reflexivity|].
  intros St' c' st' Hok.
  destruct (convert_run c' batchSize false mode groups st' Hsize Hne)
    as (log' & Hrun' & Hcompl' & _).
  destruct (committed_items c' mode groups (start st'))
    as (Hcount' & _ & Hsaved').
  rewrite committed_all in Hcount', Hsaved'
    by (try apply commit_outcomes_length; now apply all_commit_outcomes).
  eexists. eexists. split; [exact Hrun'|]. cbn [events].
  rewrite completions_app, Hcompl'. cbn [completions app].
  split; [reflexivity|]. unfold result_of. cbn [converted spaceSaved].
  rewrite Hcount', Hsaved'. split; reflexivity.
Qed.

Lemma C5_dry_run_changes_nothing_witness :
  let group id n :=
    {| document := VObj [("_id", VStr id)];
       references :=
         repeat {| path := "author"; type := strong; ref := VStr "person-1";
                   weak := VBool false |} n;
       refCount := n |} in
  let groups := [group "A" 2; group "B" 1; group "C" 3] in
  exists r,
    convertReferences (Some (recording_client [] (fun _ => None))) 2 true
      strong_to_weak groups 4 [] = Returned r
    /\ store r = []
    /\ (groups <> [] -> exists res, completions (events r) = [res])
    /\ forall res, In res (completions (events r)) ->
         converted res = 3
         /\ errors res = []
         /\ spaceSaved res = 120
         /\ forall (St' : Type) (c' : SanityClient St') (st' : St'),
              (forall id patches s,
                 fst (patch_commit c' id patches s) = None) ->
              exists r' res',
                convertReferences (Some c') 2 false strong_to_weak groups 4 st'
                = Returned r'
                /\ completions (events r') = [res']
                /\ converted res' = converted res
                /\ spaceSaved res' = spaceSaved res.
Proof.
  intros group groups.
  apply (C5_dry_run_changes_nothing (list call)
           (recording_client [] (fun _ => None)) 2 strong_to_weak groups []).
  lia.
Defined.

(** C10: with no groups [convertReferences] returns at once: nothing is
    set, nothing is handed to [onComplete], the store is not touched.
    [onComplete] is called only in a run over at least one group; such a
    run, when it ends, calls it exactly once, with the accumulated
    result, and with a batch size of at least 1 it does end. *)
Theorem C10_no_groups_no_result :
  forall (St : Type) (client : option (SanityClient St)) batchSize dryRun
         mode groups fuel (st : St),
    (groups = [] ->
     convertReferences client batchSize dryRun mode groups fuel st
     = Returned {| events := []; store := st |})
    /\ (completions
          (events (so_far (convertReferences client batchSize dryRun mode
                             groups fuel st))) <> [] ->
        groups <> [])
    /\ (forall c r,
          client = Some c -> groups <> [] ->
          convertReferences client batchSize dryRun mode groups fuel st
          = Returned r ->
          completions (events r)
          = [result_of
               (fold_left (convert_batch dryRun mode c)
                  (batches batchSize groups fuel 0) (start st))])
    /\ (forall c,
          client = Some c -> groups <> [] -> (1 <= batchSize)%Z ->
          returned (convertReferences client batchSize dryRun mode groups
                      (S (List.length groups)) st) = true).
Proof.
  intros St client batchSize dryRun mode groups fuel st.
  split; [|split; [|split]].
  - intros ->. unfold convertReferences. now destruct client.
  - intros Hcompl ->. apply Hcompl.
    unfold convertReferences. now destruct client.
  - intros c r -> Hne Hrun. unfold convertReferences in Hrun.
    replace (List.length groups =? 0)%nat with false in Hrun
      by (now destruct groups).
    pose proof (convert_loop_batches c batchSize dryRun mode groups fuel
                  0%Z (start st)
                  [setIsLoading true; setMessage "Converting references..."])
      as Hfst.
    pose proof (convert_loop_log c batchSize dryRun mode groups fuel
                  0%Z (start st)
                  [setIsLoading true; setMessage "Converting references..."])
      as Hlog.
    destruct (convert_loop batchSize dryRun mode groups fuel c 0 (start st) _)
      as [[p log] | [p log]]; [|discriminate].
    injection Hrun as <-. cbn [so_far fst snd] in Hfst, Hlog.
    destruct Hlog as (_ & Hcompl & _). cbn [events].
    rewrite completions_app, Hcompl, Hfst. reflexivity.
  - intros c -> Hne Hsize.
    destruct (convert_run c batchSize dryRun mode groups st Hsize Hne)
      as (log & -> & _). reflexivity.
Qed.

Lemma C10_no_groups_no_result_witness :
  let c := recording_client [] (fun _ => None) in
  let g :=
    {| document := VObj [("_id", VStr "post-1")];
       references :=
         [ {| path := "author"; type := strong; ref := VStr "person-1";
              weak := VBool false |} ];
       refCount := 1 |} in
  convertReferences (Some c) 10 false strong_to_weak [] 5 []
  = Returned {| events := []; store := [] |}
  /\ returned (convertReferences (Some c) 10 false strong_to_weak [g] 2 [])
     = true
  /\ completions
       (events (so_far (convertReferences (Some c) 10 false strong_to_weak
                          [g] 2 [])))
     = [ {| converted := 1; errors := []; spaceSaved := 20 |} ].
Proof.
  intros c g. split; [|split].
  - apply (C10_no_groups_no_result (list call) (Some c) 10 false
             strong_to_weak [] 5 []). reflexivity.
  - apply (C10_no_groups_no_result (list call) (Some c) 10 false
             strong_to_weak [g] 2 [] ) with (c := c);
      [reflexivity | discriminate | lia].
  - apply (proj1 (proj2 (proj2
             (C10_no_groups_no_result (list call) (Some c) 10 false
                strong_to_weak [g] 2 []))) c);
      [reflexivity | discriminate | reflexivity].
Defined.

(** ** Configuration *)

(** C6, as stated, fails: nothing checks the batch size or the document
    cap.  With [maxDocuments = 0] the scan still sends its query, and
    with [batchSize = -1] the conversion still commits the patch of the
    first of two groups. *)
Lemma C6_invalid_configuration_is_not_rejected :
  let c := recording_client [] (fun _ => None) in
  let group id :=
    {| document := VObj [("_id", VStr id)];
       references :=
         [ {| path := "author"; type := strong; ref := VStr "person-1";
              weak := VBool false |} ];
       refCount := 1 |} in
  store (scanForReferences (Some c) 0 "" "" false "" strong_to_weak [])
  = [Fetch "*[defined(_type)][0...0]"]
  /\ store (so_far (convertReferences (Some c) (-1) false strong_to_weak
                      [group "post-1"; group "post-2"] 4 []))
     = [Commit (VStr "post-1")
          [("author",
            VObj [("_type", VStr "reference"); ("_ref", VStr "person-1");
                  ("_weak", VBool true)])]].
Proof. split; reflexivity. Qed.

(** C6, amended: the batch size and the document cap are taken as they
    are given.  For every cap the scan builds the filter query with that
    cap in its slice and sends it to the store; for every batch size a
    conversion over at least one group starts its run (loading state and
    first message). *)
Theorem C6_configuration_is_not_validated :
  forall (St : Type) (c : SanityClient St) batchSize dryRun maxDocuments
         selectedType searchQuery mode groups fuel (st : St),
    store (scanForReferences (Some c) maxDocuments selectedType searchQuery
             false "" mode st)
    = snd (fetch c (build_query maxDocuments selectedType searchQuery
                      false "") st)
    /\ (exists filter,
          build_query maxDocuments selectedType searchQuery false ""
          = "*[" ++ filter ++ "][0..." ++ string_of_Z maxDocuments ++ "]")
    /\ (groups <> [] ->
        exists more,
          events (so_far (convertReferences (Some c) batchSize dryRun mode
                            groups fuel st))
          = setIsLoading true :: setMessage "Converting references..."
            :: more).
Proof.
  intros St c batchSize dryRun maxDocuments selectedType searchQuery mode
    groups fuel st.
  split; [|split].
  - unfold scanForReferences.
    now destruct (fetch c _ st) as [[e | docs] st'].
  - unfold build_query. cbn [andb].
    match goal with
    | |- exists f, "*[" ++ ?a ++ ?b ++ ?t = _ =>
        exists (a ++ b); now rewrite (append_assoc a b t)
    end.
  - intros Hne. unfold convertReferences.
    replace (List.length groups =? 0)%nat with false by (now destruct groups).
    pose proof (convert_loop_log c batchSize dryRun mode groups fuel
                  0%Z (start st)
                  [setIsLoading true; setMessage "Converting references..."])
      as (_ & _ & more & Hlog).
    destruct (convert_loop batchSize dryRun mode groups fuel c 0 (start st) _)
      as [[p log] | [p log]]; cbn [so_far snd events] in *; subst log.
    + eexists. cbn [app]. reflexivity.
    + exists more. reflexivity.
Qed.

Lemma C6_configuration_is_not_validated_witness :
  let c := recording_client [] (fun _ => None) in
  let g :=
    {| document := VObj [("_id", VStr "post-1")];
       references :=
         [ {| path := "author"; type := strong; ref := VStr "person-1";
              weak := VBool false |} ];
       refCount := 1 |} in
  exists more,
    events (so_far (convertReferences (Some c) 0 false strong_to_weak [g] 3 []))
    = setIsLoading true :: setMessage "Converting references..." :: more.
Proof.
  intros c g.
  apply (C6_configuration_is_not_validated (list call) c 0 false (-5) "" ""
           strong_to_weak [g] 3 []).
  discriminate.
Defined.

(** ** Byte sizes *)

Lemma unit_index_bounds (bytes : Z) :
  (0 < bytes)%Z ->
  let i := unit_index bytes in
  (0 <= i /\ 1024 ^ i <= bytes < 1024 ^ (i + 1))%Z.
Proof.
  intros Hpos i. unfold unit_index in i.
  pose proof (Z.log2_spec bytes Hpos) as [Hlow Hhigh].
  pose proof (Z.log2_nonneg bytes) as Hlog.
  assert (Hi : (0 <= i)%Z) by (subst i; apply Z.div_pos; lia).
  assert (Hdiv : (10 * i <= Z.log2 bytes < 10 * i + 10)%Z).
  { subst i. pose proof (Z.div_mod (Z.log2 bytes) 10 ltac:(lia)).
    pose proof (Z.mod_pos_bound (Z.log2 bytes) 10 ltac:(lia)). lia. }
  change 1024%Z with (2 ^ 10)%Z.
  rewrite <- !Z.pow_mul_r by lia.
  split; [assumption|]. split.
  - apply Z.le_trans with (2 ^ Z.log2 bytes)%Z; [|assumption].
    apply Z.pow_le_mono_r; lia.
  - apply Z.lt_le_trans with (2 ^ Z.succ (Z.log2 bytes))%Z; [assumption|].
    apply Z.pow_le_mono_r; lia.
Qed.

Lemma toFixed2_nearest (bytes i : Z) :
  (0 <= i)%Z ->
  let h := toFixed2 bytes i in
  (- 1024 ^ i <= 200 * bytes - 2 * h * 1024 ^ i < 1024 ^ i)%Z.
Proof.
  intros Hi h. unfold toFixed2 in h.
  assert (Hm : (0 < 1024 ^ i)%Z) by (apply Z.pow_pos_nonneg; lia).
  pose proof (Z.div_mod (200 * bytes + 1024 ^ i) (2 * 1024 ^ i) ltac:(lia)).
  pose proof (Z.mod_pos_bound (200 * bytes + 1024 ^ i) (2 * 1024 ^ i)
                ltac:(lia)).
  subst h. nia.
Qed.

Lemma two_decimals_shortest (h : Z) :
  two_decimals h
  = shortest h
    ++ (if (h mod 100 =? 0)%Z then ".00"
        else if (h mod 10 =? 0)%Z then "0" else "").
Proof.
  unfold two_decimals, shortest.
  assert (Hmod : ((h mod 100) mod 10 = h mod 10)%Z).
  { pose proof (Z.div_mod h 100 ltac:(lia)).
    pose proof (Z.mod_pos_bound h 100 ltac:(lia)).
    pose proof (Z.div_mod (h mod 100) 10 ltac:(lia)).
    pose proof (Z.mod_pos_bound (h mod 100) 10 ltac:(lia)).
    pose proof (Z.div_mod h 10 ltac:(lia)).
    pose proof (Z.mod_pos_bound h 10 ltac:(lia)). lia. }
  rewrite Hmod.
  destruct (Z.eqb_spec (h mod 100) 0) as [H100 | H100].
  - rewrite H100 in *. simpl in Hmod. rewrite <- Hmod. reflexivity.
  - destruct (Z.eqb_spec (h mod 10) 0) as [H10 | H10].
    + rewrite H10. rewrite !append_assoc. reflexivity.
    + rewrite !append_assoc, append_empty_r. reflexivity.
Qed.

(** C7, as stated, fails: the rounded text goes through [parseFloat]
    before the unit is appended, so 1536 bytes print as ["1.5 KB"]. *)
Lemma C7_formatBytes_1536_is_not_two_decimals :
  formatBytes 1536 = "1.5 KB" /\ formatBytes 1536 <> "1.50 KB".
Proof. split; [reflexivity | discriminate]. Qed.

(** C7, amended: [formatBytes 0] is ["0 Bytes"]; a positive size below
    1024^4 is scaled by the largest of Bytes, KB, MB, GB (powers of 1024)
    that leaves a value of at least 1, rounded to the nearest hundredth,
    and printed in shortest form, that is with two decimals from which
    the trailing zeros (and then the point) are dropped, followed by a
    space and the unit; [formatBytes 1536] is ["1.5 KB"]. *)
Theorem C7_formatBytes_shortest_form :
  formatBytes 0 = "0 Bytes"
  /\ formatBytes 1536 = "1.5 KB"
  /\ forall bytes, (0 < bytes < 1024 ^ 4)%Z ->
       exists i unit h,
         nth_error sizes (Z.to_nat i) = Some unit
         /\ (0 <= i /\ 1024 ^ i <= bytes < 1024 ^ (i + 1))%Z
         /\ (- 1024 ^ i <= 200 * bytes - 2 * h * 1024 ^ i < 1024 ^ i)%Z
         /\ formatBytes bytes = shortest h ++ " " ++ unit
         /\ two_decimals h
            = shortest h
              ++ (if (h mod 100 =? 0)%Z then ".00"
                  else if (h mod 10 =? 0)%Z then "0" else "").
Proof.
  split; [reflexivity|]. split; [reflexivity|].
  intros bytes [Hpos Hmax].
  destruct (unit_index_bounds bytes Hpos) as (Hi & Hlow & Hhigh).
  assert (Hi3 : (unit_index bytes <= 3)%Z).
  { destruct (Z.le_gt_cases (unit_index bytes) 3) as [|Hbig]; [assumption|].
    assert ((1024 ^ 4 <= 1024 ^ unit_index bytes)%Z)
      by (apply Z.pow_le_mono_r; lia).
    lia. }
  assert (Hunit : exists unit,
             nth_error sizes (Z.to_nat (unit_index bytes)) = Some unit
             /\ nth (Z.to_nat (unit_index bytes)) sizes "undefined" = unit).
  { assert (Hcases : unit_index bytes = 0%Z \/ unit_index bytes = 1%Z
                     \/ unit_index bytes = 2%Z \/ unit_index bytes = 3%Z)
      by lia.
    destruct Hcases as [-> | [-> | [-> | ->]]]; eexists; split; reflexivity. }
  destruct Hunit as (unit & Hnth & Hdefault).
  exists (unit_index bytes), unit, (toFixed2 bytes (unit_index bytes)).
  split; [exact Hnth|]. split; [now split|].
  split; [now apply toFixed2_nearest|]. split.
  - unfold formatBytes.
    destruct (Z.eqb_spec bytes 0) as [|_]; [lia|].
    destruct (Z.ltb_spec bytes 0) as [|_]; [lia|].
    now rewrite Hdefault.
  - apply two_decimals_shortest.
Qed.

Lemma C7_formatBytes_shortest_form_witness :
  exists i unit h,
    nth_error sizes (Z.to_nat i) = Some unit
    /\ (0 <= i /\ 1024 ^ i <= 1536 < 1024 ^ (i + 1))%Z
    /\ (- 1024 ^ i <= 200 * 1536 - 2 * h * 1024 ^ i < 1024 ^ i)%Z
    /\ formatBytes 1536 = shortest h ++ " " ++ unit
    /\ two_decimals h
       = shortest h
         ++ (if (h mod 100 =? 0)%Z then ".00"
             else if (h mod 10 =? 0)%Z then "0" else "").
Proof.
  apply (proj2 (proj2 C7_formatBytes_shortest_form) 1536%Z). lia.
Defined.

(** ** Paths as text *)

Lemma string_of_uint_no_close d : no_close (NilEmpty.string_of_uint d) = true.
Proof. induction d; simpl; auto. Qed.

Lemma string_of_nat_nonempty n : string_of_nat n <> "".
Proof.
  unfold string_of_nat. intros Hempty.
  assert (Hnil : Nat.to_uint n = Decimal.Nil)
    by (destruct (Nat.to_uint n); try discriminate; reflexivity).
  pose proof (DecimalNat.Unsigned.of_to n) as Hback.
  rewrite Hnil in Hback. simpl in Hback. subst n. discriminate.
Qed.

Lemma nat_of_string_of_nat n : nat_of_string (string_of_nat n) = Some n.
Proof.
  unfold nat_of_string.
  destruct (String.eqb_spec (string_of_nat n) "") as [Hempty|_].
  - now apply string_of_nat_nonempty in Hempty.
  - unfold string_of_nat. rewrite NilEmpty.usu. simpl.
    now rewrite DecimalNat.Unsigned.of_to.
Qed.

Lemma snoc_append acc c s : snoc acc c ++ s = acc ++ String c s.
Proof. unfold snoc. now rewrite append_assoc. Qed.

Lemma parse_key_chars key : forall rest acc,
  plain_key_chars key = true ->
  parse_key (key ++ rest) acc = parse_key rest (acc ++ key).
Proof.
  induction key as [|ch key IH]; intros rest acc Hplain; simpl.
  - now rewrite append_empty_r.
  - simpl in Hplain. apply andb_true_iff in Hplain as [Hch Hplain].
    apply andb_true_iff in Hch as [Hdot Hopen].
    apply negb_true_iff in Hdot, Hopen. rewrite Hdot, Hopen.
    rewrite IH by assumption. now rewrite snoc_append.
Qed.

Lemma parse_index_chars digits : forall rest acc,
  no_close digits = true ->
  parse_index (digits ++ rest) acc = parse_index rest (acc ++ digits).
Proof.
  induction digits as [|ch digits IH]; intros rest acc Hdigits; simpl.
  - now rewrite append_empty_r.
  - simpl in Hdigits. apply andb_true_iff in Hdigits as [Hch Hdigits].
    apply negb_true_iff in Hch. rewrite Hch.
    rewrite IH by assumption. now rewrite snoc_append.
Qed.

Lemma parse_key_boundary s acc :
  acc <> "" -> at_boundary s = true ->
  parse_key s acc = option_map (cons (Key acc)) (parse_after s).
Proof.
  intros Hacc Hs. apply String.eqb_neq in Hacc.
  destruct s as [|ch s]; simpl; rewrite ?Hacc; [reflexivity|].
  simpl in Hs.
  destruct (Ascii.eqb ch "."); [reflexivity|].
  destruct (Ascii.eqb ch "["); [reflexivity | discriminate].
Qed.

Lemma suffix_boundary segs : at_boundary (suffix segs) = true.
Proof. now destruct segs as [|[key | index] rest]. Qed.

Lemma plain_key_nonempty key : plain_key key = true -> key <> "".
Proof.
  unfold plain_key. intros H. apply andb_true_iff in H as [H _].
  apply negb_true_iff in H. now apply String.eqb_neq.
Qed.

Lemma parse_index_text index rest :
  parse_index (string_of_nat index ++ "]" ++ rest) ""
  = option_map (cons (Index index)) (parse_after rest).
Proof.
  rewrite parse_index_chars by apply string_of_uint_no_close.
  simpl. now rewrite nat_of_string_of_nat.
Qed.

Lemma parse_key_text key rest :
  plain_key key = true -> at_boundary rest = true ->
  parse_key (key ++ rest) "" = option_map (cons (Key key)) (parse_after rest).
Proof.
  intros Hkey Hrest. pose proof (plain_key_nonempty key Hkey) as Hne.
  unfold plain_key in Hkey. apply andb_true_iff in Hkey as [_ Hchars].
  rewrite parse_key_chars by assumption. simpl.
  now apply parse_key_boundary.
Qed.

(** The text after a path is read back as the positions it was written
    from. *)
Lemma parse_after_suffix segs :
  plain_segs segs = true -> parse_after (suffix segs) = Some segs.
Proof.
  induction segs as [|[key | index] rest IH]; intros Hplain; simpl.
  - reflexivity.
  - simpl in Hplain. apply andb_true_iff in Hplain as [Hkey Hrest].
    rewrite parse_key_text by (auto using suffix_boundary).
    now rewrite IH.
  - change (String "]" (suffix rest)) with ("]" ++ suffix rest).
    rewrite parse_index_text. now rewrite IH.
Qed.

Lemma render_from_suffix segs : forall p,
  p <> "" -> render_from p segs = p ++ suffix segs.
Proof.
  induction segs as [|[key | index] rest IH]; intros p Hp; simpl.
  - now rewrite append_empty_r.
  - unfold render_from in *. simpl. unfold currentPath.
    apply String.eqb_neq in Hp. rewrite Hp.
    rewrite IH by (apply append_nonempty_r; discriminate).
    now rewrite !append_assoc.
  - unfold render_from in *. simpl. unfold indexPath.
    rewrite IH by (apply append_nonempty_r; discriminate).
    now rewrite !append_assoc.
Qed.

Lemma parse_render segs :
  plain_segs segs = true -> parse_path (render segs) = Some segs.
Proof.
  destruct segs as [|[key | index] rest]; intros Hplain.
  - reflexivity.
  - simpl in Hplain. apply andb_true_iff in Hplain as [Hkey Hrest].
    pose proof (plain_key_nonempty key Hkey) as Hne.
    unfold render, render_from. simpl. unfold currentPath at 1. simpl.
    fold (render_from key rest). rewrite render_from_suffix by assumption.
    destruct key as [|ch key]; [contradiction|].
    assert (Hopen : Ascii.eqb ch "[" = false).
    { unfold plain_key in Hkey. simpl in Hkey.
      apply andb_true_iff in Hkey as [Hkey _].
      apply andb_true_iff in Hkey as [_ Hkey].
      now apply negb_true_iff in Hkey. }
    unfold parse_path. cbn [append]. rewrite Hopen.
    change (String ch (key ++ suffix rest))
      with (String ch key ++ suffix rest).
    rewrite parse_key_text by (auto using suffix_boundary).
    now rewrite parse_after_suffix.
  - simpl in Hplain. unfold render, render_from. simpl.
    fold (render_from (indexPath "" index) rest).
    rewrite render_from_suffix
      by (apply String.eqb_neq, indexPath_nonempty).
    unfold indexPath. cbn [append]. unfold parse_path.
    cbn [Ascii.eqb Bool.eqb]. rewrite append_assoc.
    rewrite parse_index_text. now rewrite parse_after_suffix.
Qed.

(** ** Where the descriptors sit *)

Lemma sites_in_obj fields :
  sites_in (VObj fields)
  = forEach_keys (fun key x => site_of (Key key) x (sites_in x)) fields.
Proof. reflexivity. Qed.

Lemma sites_in_arr items :
  sites_in (VArr items)
  = forEach_items (fun item index => site_of (Index index) item (sites_in item))
      items 0.
Proof. reflexivity. Qed.

Lemma forEach_keys_app {A : Type} (f : string -> value -> list A) l1 l2 :
  forEach_keys f (l1 ++ l2) = (forEach_keys f l1 ++ forEach_keys f l2)%list.
Proof.
  induction l1 as [|[k x] l1 IH]; simpl; [reflexivity|].
  now rewrite IH, app_assoc.
Qed.

Lemma forEach_items_app {A : Type} (f : value -> nat -> list A) l1 :
  forall l2 start,
    forEach_items f (l1 ++ l2) start
    = (forEach_items f l1 start
       ++ forEach_items f l2 (start + List.length l1))%list.
Proof.
  induction l1 as [|x l1 IH]; intros l2 start; simpl.
  - now rewrite Nat.add_0_r.
  - rewrite IH, app_assoc. do 2 f_equal. lia.
Qed.

Lemma forEach_keys_nil {A : Type} (f : string -> value -> list A) fields :
  Forall (fun kv => f (fst kv) (snd kv) = []) fields ->
  forEach_keys f fields = [].
Proof.
  induction 1 as [|[k x] rest Hx _ IH]; simpl; [reflexivity|].
  simpl in Hx. now rewrite Hx, IH.
Qed.

Lemma forEach_items_nil {A : Type} (f : value -> nat -> list A) items :
  Forall (fun x => forall i, f x i = []) items ->
  forall start, forEach_items f items start = [].
Proof.
  induction 1 as [|x rest Hx _ IH]; intros start; simpl; [reflexivity|].
  now rewrite Hx, IH.
Qed.

Lemma site_of_nil s x inner :
  site_of s x inner = [] <-> is_reference x = false /\ inner = [].
Proof.
  unfold site_of. split.
  - intros H. apply app_eq_nil in H as [Href Hmap].
    apply map_eq_nil in Hmap. split; [|assumption].
    now destruct (is_reference x).
  - intros [-> ->]. reflexivity.
Qed.

Lemma sites_fields_nil fields :
  forEach_keys (fun key x => site_of (Key key) x (sites_in x)) fields = []
  <-> Forall (fun kv => clean (snd kv)) fields.
Proof.
  induction fields as [|[k x] rest IH]; simpl.
  - split; [constructor | reflexivity].
  - split.
    + intros H. apply app_eq_nil in H as [Hx Hrest].
      constructor; [now apply site_of_nil in Hx | now apply IH].
    + intros H. inversion H as [|? ? Hx Hrest]; subst.
      apply IH in Hrest. rewrite Hrest.
      now rewrite (proj2 (site_of_nil (Key k) x (sites_in x)) Hx).
Qed.

Lemma sites_items_nil items : forall start,
  forEach_items (fun item index => site_of (Index index) item (sites_in item))
    items start = []
  <-> Forall clean items.
Proof.
  induction items as [|x rest IH]; intros start; simpl.
  - split; [constructor | reflexivity].
  - split.
    + intros H. apply app_eq_nil in H as [Hx Hrest].
      constructor; [now apply site_of_nil in Hx | now apply IH in Hrest].
    + intros H. inversion H as [|? ? Hx Hrest]; subst.
      apply (IH (S start)) in Hrest. rewrite Hrest.
      now rewrite (proj2 (site_of_nil (Index start) x (sites_in x)) Hx).
Qed.

(** Without a descriptor inside, the finder has nothing to report. *)
Lemma no_sites_no_entries v :
  sites_in v = [] -> forall mode p, findReferences v mode p = [].
Proof.
  induction v as [| | | | |items IH|fields IH] using value_tree_ind;
    intros Hsites mode p; try reflexivity.
  - rewrite sites_in_arr in Hsites. apply sites_items_nil in Hsites.
    rewrite findReferences_arr. apply forEach_items_nil.
    apply Forall_forall. intros x Hx i.
    rewrite Forall_forall in IH, Hsites.
    apply IH; [assumption|]. now apply Hsites.
  - rewrite sites_in_obj in Hsites. apply sites_fields_nil in Hsites.
    rewrite findReferences_obj. apply forEach_keys_nil.
    apply Forall_forall. intros [k x] Hx. simpl.
    rewrite Forall_forall in IH, Hsites.
    destruct (Hsites _ Hx) as [Href Hnone]. simpl in Href, Hnone.
    rewrite visit_field_cases.
    destruct (truthy x && typeof_object x); [|reflexivity].
    replace (selected mode x) with false
      by (destruct mode; simpl; now rewrite Href).
    now apply (IH _ Hx).
Qed.

Lemma clean_fields_no_entries mode p fields :
  Forall (fun kv => clean (snd kv)) fields ->
  forEach_keys (visit_field (fun v q => findReferences v mode q) mode p) fields
  = [].
Proof.
  intros Hclean. rewrite <- findReferences_obj.
  apply no_sites_no_entries. rewrite sites_in_obj.
  now apply sites_fields_nil.
Qed.

Lemma clean_items_no_entries mode p items start :
  Forall clean items ->
  forEach_items (fun item index => findReferences item mode (indexPath p index))
    items start = [].
Proof.
  intros Hclean. apply forEach_items_nil.
  apply Forall_forall. intros x Hx i.
  rewrite Forall_forall in Hclean.
  apply no_sites_no_entries. now apply Hclean.
Qed.

Lemma site_paths_nonempty v segs d :
  In (segs, d) (sites_in v) -> segs <> [].
Proof.
  assert (Hsite : forall s x inner,
             In (segs, d) (site_of s x inner) -> segs <> []).
  { unfold site_of. intros s x inner Hin.
    apply in_app_or in Hin as [Hin | Hin].
    - destruct (is_reference x); [|contradiction].
      destruct Hin as [Heq | []]. injection Heq as <- _. discriminate.
    - apply in_map_iff in Hin as ([segs' d'] & Heq & _).
      injection Heq as <- _. discriminate. }
  destruct v as [| | | | |items|fields]; try contradiction.
  - rewrite sites_in_arr. generalize 0.
    induction items as [|x rest IH]; intros start; simpl; [easy|].
    intros Hin. apply in_app_or in Hin as [Hin | Hin]; eauto.
  - rewrite sites_in_obj.
    induction fields as [|[k x] rest IH]; simpl; [easy|].
    intros Hin. apply in_app_or in Hin as [Hin | Hin]; eauto.
Qed.

Lemma site_of_unit s x segs d :
  site_of s x (sites_in x) = [(segs, d)] ->
  (segs = [s] /\ d = x /\ is_reference x = true /\ sites_in x = [])
  \/ (exists segs', segs = s :: segs' /\ segs' <> []
                   /\ is_reference x = false /\ sites_in x = [(segs', d)]).
Proof.
  unfold site_of. destruct (is_reference x) eqn:Href; simpl; intros H.
  - left. injection H as <- <- Hmap. apply map_eq_nil in Hmap. auto.
  - right. destruct (sites_in x) as [|[segs' d'] more] eqn:Hsites;
      [discriminate|].
    simpl in H. injection H as <- <- Hmore. apply map_eq_nil in Hmore.
    subst more. exists segs'. repeat split; auto.
    apply (site_paths_nonempty x segs' d'). rewrite Hsites. now left.
Qed.

Lemma fields_unit fields segs d :
  forEach_keys (fun key x => site_of (Key key) x (sites_in x)) fields
  = [(segs, d)] ->
  exists before key x after,
    fields = (before ++ (key, x) :: after)%list
    /\ Forall (fun kv => clean (snd kv)) before
    /\ Forall (fun kv => clean (snd kv)) after
    /\ site_of (Key key) x (sites_in x) = [(segs, d)].
Proof.
  induction fields as [|[k x] rest IH]; simpl; [discriminate|].
  intros H. apply app_eq_unit in H as [[Hx Hrest] | [Hx Hrest]].
  - destruct (IH Hrest) as (before & key & y & after & -> & Hb & Ha & Hy).
    exists ((k, x) :: before), key, y, after. repeat split; auto.
    constructor; [|assumption]. now apply site_of_nil in Hx.
  - exists [], k, x, rest. repeat split; auto.
    now apply sites_fields_nil.
Qed.

Lemma items_unit items segs d : forall start,
  forEach_items (fun item index => site_of (Index index) item (sites_in item))
    items start = [(segs, d)] ->
  exists before x after,
    items = (before ++ x :: after)%list
    /\ Forall clean before /\ Forall clean after
    /\ site_of (Index (start + List.length before)) x (sites_in x)
       = [(segs, d)].
Proof.
  induction items as [|x rest IH]; intros start; simpl; [discriminate|].
  intros H. apply app_eq_unit in H as [[Hx Hrest] | [Hx Hrest]].
  - destruct (IH _ Hrest) as (before & y & after & -> & Hb & Ha & Hy).
    exists (x :: before), y, after. repeat split; auto.
    + constructor; [|assumption]. now apply site_of_nil in Hx.
    + simpl. now rewrite <- Nat.add_succ_comm.
  - exists [], x, rest. repeat split; auto.
    + now apply sites_items_nil in Hrest.
    + simpl. now rewrite Nat.add_0_r.
Qed.

(** A tree with a single descriptor is a way to it through clean
    surroundings. *)
Lemma unique_site_focus d segs : forall v,
  sites_in v = [(segs, d)] -> focus d segs v.
Proof.
  induction segs as [|s segs IH]; intros v Hsites.
  - exfalso. apply (site_paths_nonempty v [] d); [|reflexivity].
    rewrite Hsites. now left.
  - destruct v as [| | | | |items|fields]; try discriminate.
    + rewrite sites_in_arr in Hsites.
      apply items_unit in Hsites
        as (before & x & after & -> & Hb & Ha & Hx).
      apply site_of_unit in Hx
        as [(Hsegs & -> & Href & Hin) | (segs' & Hsegs & Hne & Href & Hin)];
        injection Hsegs as -> ->.
      * now apply focus_item.
      * apply focus_in_item; auto.
    + rewrite sites_in_obj in Hsites.
      apply fields_unit in Hsites
        as (before & key & x & after & -> & Hb & Ha & Hx).
      apply site_of_unit in Hx
        as [(Hsegs & -> & Href & Hin) | (segs' & Hsegs & Hne & Href & Hin)];
        injection Hsegs as -> ->.
      * now apply focus_field.
      * apply focus_in_field; auto.
Qed.

Lemma focus_sites d segs v : focus d segs v -> sites_in v = [(segs, d)].
Proof.
  induction 1 as [before key after Hb Ha Href Hin
                 |before key x after segs Hb Ha Href Hne Hfocus IH
                 |before after Hb Ha Href Hin
                 |before x after segs Hb Ha Href Hne Hfocus IH].
  - rewrite sites_in_obj, forEach_keys_app. cbn [forEach_keys].
    rewrite (proj2 (sites_fields_nil before) Hb).
    rewrite (proj2 (sites_fields_nil after) Ha).
    unfold site_of. now rewrite Href, Hin.
  - rewrite sites_in_obj, forEach_keys_app. cbn [forEach_keys].
    rewrite (proj2 (sites_fields_nil before) Hb).
    rewrite (proj2 (sites_fields_nil after) Ha).
    unfold site_of. now rewrite Href, IH.
  - rewrite sites_in_arr, forEach_items_app. cbn [forEach_items].
    rewrite (proj2 (sites_items_nil before _) Hb).
    rewrite (proj2 (sites_items_nil after _) Ha).
    unfold site_of. now rewrite Href, Hin.
  - rewrite sites_in_arr, forEach_items_app. cbn [forEach_items].
    rewrite (proj2 (sites_items_nil before _) Hb).
    rewrite (proj2 (sites_items_nil after _) Ha).
    unfold site_of. now rewrite Href, IH.
Qed.

Lemma focus_container d segs v : focus d segs v -> container v = true.
Proof. now destruct 1. Qed.

Lemma is_reference_container v : is_reference v = true -> container v = true.
Proof. intros H. now destruct (is_reference_object v H) as [fs ->]. Qed.

Lemma container_visited v :
  container v = true -> truthy v && typeof_object v = true.
Proof. now destruct v. Qed.

Lemma ends_in_key_cons s segs :
  segs <> [] -> ends_in_key (s :: segs) = ends_in_key segs.
Proof. destruct segs; [contradiction | reflexivity]. Qed.

(** The finder reports the one descriptor of a tree, under the text of
    its position, when it sits in an object field and the mode selects
    it. *)
Lemma focus_found mode d segs v :
  focus d segs v -> ends_in_key segs = true -> selected mode d = true ->
  forall p, findReferences v mode p = [entry mode (render_from p segs) d].
Proof.
  intros Hfocus.
  induction Hfocus as [before key after Hb Ha Href Hin
                      |before key x after segs Hb Ha Href Hne Hfocus IH
                      |before after Hb Ha Href Hin
                      |before x after segs Hb Ha Href Hne Hfocus IH];
    intros Hend Hsel p.
  - rewrite findReferences_obj, forEach_keys_app. cbn [forEach_keys].
    rewrite !clean_fields_no_entries by assumption.
    rewrite visit_field_cases, container_visited, Hsel
      by (now apply is_reference_container).
    reflexivity.
  - rewrite findReferences_obj, forEach_keys_app. cbn [forEach_keys].
    rewrite !clean_fields_no_entries by assumption.
    rewrite visit_field_cases, container_visited
      by (eapply focus_container; eassumption).
    replace (selected mode x) with false
      by (destruct mode; simpl; now rewrite Href).
    rewrite ends_in_key_cons in Hend by assumption.
    rewrite IH by assumption. now rewrite app_nil_r.
  - discriminate.
  - rewrite findReferences_arr, forEach_items_app. cbn [forEach_items].
    rewrite !clean_items_no_entries by assumption.
    rewrite ends_in_key_cons in Hend by assumption.
    rewrite IH by assumption. now rewrite app_nil_r.
Qed.

(** *** Well-formed trees *)

Lemma has_key_app key l1 l2 :
  has_key key (l1 ++ l2) = has_key key l1 || has_key key l2.
Proof.
  induction l1 as [|[k x] l1 IH]; simpl; [reflexivity|].
  now rewrite IH, orb_assoc.
Qed.

Lemma well_formed_field before key x after :
  well_formed (VObj (before ++ (key, x) :: after)) = true ->
  has_key key before = false /\ plain_key key = true /\ well_formed x = true.
Proof.
  induction before as [|[k0 x0] before IH]; simpl; intros Hwf.
  - apply andb_true_iff in Hwf as [Hwf _].
    apply andb_true_iff in Hwf as [Hwf Hx].
    apply andb_true_iff in Hwf as [Hkey _]. auto.
  - apply andb_true_iff in Hwf as [Hwf Hrest].
    apply andb_true_iff in Hwf as [Hwf _].
    apply andb_true_iff in Hwf as [_ Hfresh].
    apply negb_true_iff in Hfresh. rewrite has_key_app in Hfresh.
    apply orb_false_iff in Hfresh as [_ Hfresh]. simpl in Hfresh.
    apply orb_false_iff in Hfresh as [Hfresh _].
    destruct (IH Hrest) as (Hnone & Hkey & Hx).
    rewrite String.eqb_sym, Hfresh, Hnone. auto.
Qed.

Lemma well_formed_item before x after :
  well_formed (VArr (before ++ x :: after)) = true -> well_formed x = true.
Proof.
  induction before as [|x0 before IH]; simpl; intros Hwf.
  - now apply andb_true_iff in Hwf as [Hx _].
  - apply andb_true_iff in Hwf as [_ Hrest]. now apply IH.
Qed.

Lemma focus_plain d segs v :
  focus d segs v -> well_formed v = true -> plain_segs segs = true.
Proof.
  induction 1 as [before key after Hb Ha Href Hin
                 |before key x after segs Hb Ha Href Hne Hfocus IH
                 |before after Hb Ha Href Hin
                 |before x after segs Hb Ha Href Hne Hfocus IH];
    intros Hwf; simpl.
  - apply well_formed_field in Hwf as (_ & -> & _). reflexivity.
  - apply well_formed_field in Hwf as (_ & -> & Hx). now apply IH.
  - reflexivity.
  - apply well_formed_item in Hwf. now apply IH.
Qed.

(** *** Replacing the descriptor *)

Lemma update_field_app key f before x after :
  has_key key before = false ->
  update_field key f (before ++ (key, x) :: after)
  = option_map (fun x' => (before ++ (key, x') :: after)%list) (f x).
Proof.
  induction before as [|[k0 x0] before IH]; simpl; intros Hfresh.
  - now rewrite String.eqb_refl.
  - apply orb_false_iff in Hfresh as [Hk0 Hfresh].
    rewrite Hk0, IH by assumption. now destruct (f x).
Qed.

Lemma update_item_app f before x after :
  update_item (List.length before) f (before ++ x :: after)
  = option_map (fun x' => (before ++ x' :: after)%list) (f x).
Proof.
  induction before as [|x0 before IH]; simpl; [reflexivity|].
  rewrite IH. now destruct (f x).
Qed.

Lemma lookup_replace key before k x x' after :
  lookup key (before ++ (k, x) :: after)
  = lookup key (before ++ (k, x') :: after)
  \/ (lookup key (before ++ (k, x) :: after) = x
      /\ lookup key (before ++ (k, x') :: after) = x').
Proof.
  induction before as [|[k0 x0] before IH]; simpl.
  - destruct (String.eqb k key); auto.
  - destruct (String.eqb k0 key); auto.
Qed.

Lemma is_reference_replace before k x x' after :
  container x = true -> container x' = true ->
  is_reference (VObj (before ++ (k, x') :: after))
  = is_reference (VObj (before ++ (k, x) :: after)).
Proof.
  intros Hx Hx'. unfold is_reference. cbn [get].
  destruct (lookup_replace "_type" before k x x' after) as [-> | [-> ->]];
    destruct (lookup_replace "_ref" before k x x' after) as [-> | [-> ->]];
    try reflexivity;
    destruct x; try discriminate; destruct x'; try discriminate; reflexivity.
Qed.

(** Setting another descriptor where the one descriptor sits: the update
    applies, the new descriptor is the only one of the new tree, and the
    tree is the same when the descriptor is. *)
Lemma focus_set d d' segs v :
  focus d segs v -> well_formed v = true ->
  is_reference d' = true -> sites_in d' = [] ->
  exists v',
    set_at segs d' v = Some v'
    /\ focus d' segs v'
    /\ is_reference v' = is_reference v
    /\ (d' = d -> v' = v).
Proof.
  intros Hfocus Hwf Href' Hin'. revert Hwf.
  induction Hfocus as [before key after Hb Ha Href Hin
                      |before key x after segs Hb Ha Href Hne Hfocus IH
                      |before after Hb Ha Href Hin
                      |before x after segs Hb Ha Href Hne Hfocus IH];
    intros Hwf.
  - apply well_formed_field in Hwf as (Hfresh & _ & _).
    exists (VObj (before ++ (key, d') :: after)).
    cbn [set_at]. rewrite update_field_app by assumption.
    repeat split.
    + now apply focus_field.
    + apply is_reference_replace; now apply is_reference_container.
    + now intros ->.
  - apply well_formed_field in Hwf as (Hfresh & _ & Hx).
    destruct (IH Hx) as (x' & Hset & Hfocus' & Hsame & Hid).
    exists (VObj (before ++ (key, x') :: after)).
    cbn [set_at]. rewrite update_field_app, Hset by assumption.
    repeat split.
    + apply focus_in_field; auto. now rewrite Hsame.
    + apply is_reference_replace; eapply focus_container; eassumption.
    + intros Heq. now rewrite (Hid Heq).
  - exists (VArr (before ++ d' :: after)).
    cbn [set_at]. rewrite update_item_app.
    repeat split.
    + now apply focus_item.
    + now intros ->.
  - apply well_formed_item in Hwf.
    destruct (IH Hwf) as (x' & Hset & Hfocus' & Hsame & Hid).
    exists (VArr (before ++ x' :: after)).
    cbn [set_at]. rewrite update_item_app, Hset.
    repeat split.
    + apply focus_in_item; auto. now rewrite Hsame.
    + intros Heq. now rewrite (Hid Heq).
Qed.

Lemma update_field_again key (f g : value -> option value) fields :
  (forall u u1, f u = Some u1 -> g u1 = g u) ->
  forall fields1,
    update_field key f fields = Some fields1 ->
    update_field key g fields1 = update_field key g fields.
Proof.
  intros Hfg. induction fields as [|[k x] rest IH]; simpl; intros fields1 H;
    [discriminate|].
  destruct (String.eqb k key) eqn:Hk.
  - destruct (f x) as [x1|] eqn:Hfx; [|discriminate].
    injection H as <-. simpl. rewrite Hk. now rewrite (Hfg x x1 Hfx).
  - destruct (update_field key f rest) as [rest1|]; [|discriminate].
    injection H as <-. simpl. rewrite Hk. now rewrite (IH rest1 eq_refl).
Qed.

Lemma update_item_again (f g : value -> option value) items :
  (forall u u1, f u = Some u1 -> g u1 = g u) ->
  forall index items1,
    update_item index f items = Some items1 ->
    update_item index g items1 = update_item index g items.
Proof.
  intros Hfg. induction items as [|x rest IH]; intros index items1 H;
    [now destruct index|].
  destruct index as [|index]; simpl in *.
  - destruct (f x) as [x1|] eqn:Hfx; [|discriminate].
    injection H as <-. simpl. now rewrite (Hfg x x1 Hfx).
  - destruct (update_item index f rest) as [rest1|] eqn:Hrest;
      [|discriminate].
    injection H as <-. simpl. now rewrite (IH index rest1 Hrest).
Qed.

(** A second [set] at the same position overwrites the first. *)
Lemma set_at_again segs a b : forall v v1,
  set_at segs a v = Some v1 -> set_at segs b v1 = set_at segs b v.
Proof.
  induction segs as [|[key | index] segs IH]; intros v v1 H; simpl in *.
  - reflexivity.
  - destruct v as [| | | | | |fields]; try discriminate.
    destruct (update_field key (set_at segs a) fields) as [fields1|] eqn:Hf;
      [|discriminate].
    injection H as <-.
    now rewrite (update_field_again key _ (set_at segs b) fields IH _ Hf).
  - destruct v as [| | | | |items|]; try discriminate.
    destruct (update_item index (set_at segs a) items) as [items1|] eqn:Hi;
      [|discriminate].
    injection H as <-.
    now rewrite (update_item_again _ (set_at segs b) items IH _ _ Hi).
Qed.

Lemma clean_lookup key fields :
  sites_in (VObj fields) = [] -> clean (lookup key fields).
Proof.
  rewrite sites_in_obj, sites_fields_nil.
  induction 1 as [|[k x] rest Hx _ IH]; simpl.
  - now split.
  - destruct (String.eqb k key); assumption.
Qed.

(** ** Converting one reference and back *)

Lemma focus_not_selected mode d segs v :
  focus d segs v -> selected mode d = false ->
  forall p, findReferences v mode p = [].
Proof.
  intros Hfocus Hsel.
  induction Hfocus as [before key after Hb Ha Href Hin
                      |before key x after segs Hb Ha Href Hne Hfocus IH
                      |before after Hb Ha Href Hin
                      |before x after segs Hb Ha Href Hne Hfocus IH];
    intros p.
  - rewrite findReferences_obj, forEach_keys_app. cbn [forEach_keys].
    rewrite !clean_fields_no_entries by assumption.
    rewrite visit_field_cases, container_visited, Hsel
      by (now apply is_reference_container).
    now rewrite no_sites_no_entries.
  - rewrite findReferences_obj, forEach_keys_app. cbn [forEach_keys].
    rewrite !clean_fields_no_entries by assumption.
    rewrite visit_field_cases, container_visited
      by (eapply focus_container; eassumption).
    replace (selected mode x) with false
      by (destruct mode; simpl; now rewrite Href).
    now rewrite IH.
  - rewrite findReferences_arr, forEach_items_app. cbn [forEach_items].
    rewrite !clean_items_no_entries by assumption.
    now rewrite no_sites_no_entries.
  - rewrite findReferences_arr, forEach_items_app. cbn [forEach_items].
    rewrite !clean_items_no_entries by assumption.
    now rewrite IH.
Qed.

Lemma set_descriptors target :
  truthy target = true -> clean target ->
  (is_reference (weak_descriptor target) = true
   /\ sites_in (weak_descriptor target) = [])
  /\ (is_reference (strong_descriptor target) = true
      /\ sites_in (strong_descriptor target) = []).
Proof.
  intros Htruthy [Href Hin].
  unfold weak_descriptor, strong_descriptor, is_reference.
  cbn [get lookup String.eqb Ascii.eqb Bool.eqb is_string andb].
  rewrite !sites_in_obj. cbn [forEach_keys]. unfold site_of.
  rewrite Htruthy, Href, Hin. repeat split; reflexivity.
Qed.

Lemma store_set_render segs new doc :
  plain_segs segs = true ->
  store_set (render segs) new doc = set_at segs new doc.
Proof. intros Hplain. unfold store_set. now rewrite parse_render. Qed.

(** C2, as stated, fails: after the strong-to-weak patch the descriptor
    is weak, and a weak-to-strong scan is the scan that reports weak
    descriptors; it yields one occurrence, not none. *)
Lemma C2_weak_scan_after_patch_finds_one :
  let doc :=
    VObj [("_id", VStr "post-1");
          ("author",
           VObj [("_type", VStr "reference"); ("_ref", VStr "person-1")])] in
  descriptor_sites doc
  = [([Key "author"],
      VObj [("_type", VStr "reference"); ("_ref", VStr "person-1")])]
  /\ exists doc1,
       apply_patches
         (build_patches strong_to_weak (findReferences doc strong_to_weak ""))
         doc = Some doc1
       /\ findReferences doc1 weak_to_strong ""
          = [ {| path := "author"; type := weak_ref; ref := VStr "person-1";
                 weak := VBool true |} ]
       /\ ~ (List.length (findReferences doc1 weak_to_strong "") = 0).
Proof.
  split; [reflexivity|]. eexists. split; [reflexivity|].
  split; [reflexivity | discriminate].
Qed.

(** C2, amended: take a well-formed document whose only reference
    descriptor sits in an object field and carries no weak marker.  The
    strong-to-weak scan yields exactly one occurrence, with [weak] false.
    After its patch the document holds the weak descriptor at that place
    and nowhere else, and the weak-to-strong scan yields exactly that one
    occurrence.  After the weak-to-strong patch the place holds the
    descriptor [{_type, _ref}] without [_weak]: the strong-to-weak scan
    yields the first occurrence again, the weak-to-strong scan nothing,
    and the document is the original one when the original descriptor
    had just these two fields. *)
Theorem C2_round_trip_through_weak :
  forall doc segs d,
    well_formed doc = true ->
    descriptor_sites doc = [(segs, d)] ->
    ends_in_key segs = true ->
    truthy (get d "_weak") = false ->
    let target := get d "_ref" in
    let found :=
      {| path := render segs; type := strong; ref := target;
         weak := VBool false |} in
    let found_weak :=
      {| path := render segs; type := weak_ref; ref := target;
         weak := VBool true |} in
    findReferences doc strong_to_weak "" = [found]
    /\ exists doc1,
         apply_patches (build_patches strong_to_weak [found]) doc = Some doc1
         /\ descriptor_sites doc1 = [(segs, weak_descriptor target)]
         /\ findReferences doc1 weak_to_strong "" = [found_weak]
         /\ exists doc2,
              apply_patches (build_patches weak_to_strong [found_weak]) doc1
              = Some doc2
              /\ descriptor_sites doc2 = [(segs, strong_descriptor target)]
              /\ get (strong_descriptor target) "_weak" = VUndefined
              /\ findReferences doc2 strong_to_weak "" = [found]
              /\ findReferences doc2 weak_to_strong "" = []
              /\ (d = strong_descriptor target -> doc2 = doc).
Proof.
  intros doc segs d Hwf Hsites Hend Hweak target found found_weak.
  assert (Hroot : is_reference doc = false).
  { unfold descriptor_sites in Hsites.
    destruct (is_reference doc); [|reflexivity].
    injection Hsites as <- _ _. discriminate. }
  unfold descriptor_sites in Hsites. rewrite Hroot in Hsites.
  simpl in Hsites.
  pose proof (unique_site_focus d segs doc Hsites) as Hfocus.
  pose proof (focus_plain d segs doc Hfocus Hwf) as Hplain.
  assert (Hd : is_reference d = true /\ sites_in d = []).
  { clear -Hfocus. induction Hfocus; auto. }
  destruct Hd as [Href Hin].
  destruct (is_reference_object d Href) as [fs ->].
  assert (Htarget : truthy target = true).
  { unfold is_reference in Href. now apply andb_true_iff in Href. }
  assert (Hclean : clean target) by (now apply clean_lookup).
  destruct (set_descriptors target Htarget Hclean)
    as [[Hwref Hwin] [Hsref Hsin]].
  assert (Hfound : entry strong_to_weak (render segs) (VObj fs) = found).
  { unfold entry, found, js_or. now rewrite Hweak. }
  split.
  { rewrite <- Hfound.
    now apply (focus_found strong_to_weak (VObj fs) segs doc Hfocus). }
  destruct (focus_set (VObj fs) (weak_descriptor target) segs doc
              Hfocus Hwf Hwref Hwin)
    as (doc1 & Hset1 & Hfocus1 & Hroot1 & _).
  destruct (focus_set (VObj fs) (strong_descriptor target) segs doc
              Hfocus Hwf Hsref Hsin)
    as (doc2 & Hset2 & Hfocus2 & Hroot2 & Hid).
  exists doc1. split; [|split; [|split]].
  - cbn [build_patches map patch_of apply_patches path ref found].
    fold (weak_descriptor target).
    now rewrite store_set_render, Hset1.
  - unfold descriptor_sites. rewrite Hroot1, Hroot.
    now apply focus_sites.
  - apply (focus_found weak_to_strong _ segs doc1 Hfocus1 Hend).
    unfold selected. now rewrite Hwref.
  - exists doc2. repeat split.
    + cbn [build_patches map patch_of apply_patches path ref found_weak].
      fold (strong_descriptor target).
      rewrite store_set_render by assumption.
      now rewrite (set_at_again segs _ _ doc doc1 Hset1), Hset2.
    + unfold descriptor_sites. rewrite Hroot2, Hroot.
      now apply focus_sites.
    + apply (focus_found strong_to_weak _ segs doc2 Hfocus2 Hend).
      exact Hsref.
    + apply (focus_not_selected weak_to_strong _ segs doc2 Hfocus2).
      unfold selected. now rewrite Hsref.
    + intros Heq. apply Hid. now symmetry.
Qed.

Lemma C2_round_trip_through_weak_witness :
  let d := VObj [("_type", VStr "reference"); ("_ref", VStr "person-1")] in
  let doc :=
    VObj [("_id", VStr "post-1");
          ("items", VArr [VObj [("title", VStr "first")];
                          VObj [("linked", d)]])] in
  let found :=
    {| path := "items[1].linked"; type := strong; ref := VStr "person-1";
       weak := VBool false |} in
  let found_weak :=
    {| path := "items[1].linked"; type := weak_ref; ref := VStr "person-1";
       weak := VBool true |} in
  findReferences doc strong_to_weak "" = [found]
  /\ exists doc1,
       apply_patches (build_patches strong_to_weak [found]) doc = Some doc1
       /\ descriptor_sites doc1
          = [([Key "items"; Index 1; Key "linked"],
              weak_descriptor (VStr "person-1"))]
       /\ findReferences doc1 weak_to_strong "" = [found_weak]
       /\ exists doc2,
            apply_patches (build_patches weak_to_strong [found_weak]) doc1
            = Some doc2
            /\ descriptor_sites doc2
               = [([Key "items"; Index 1; Key "linked"],
                   strong_descriptor (VStr "person-1"))]
            /\ get (strong_descriptor (VStr "person-1")) "_weak" = VUndefined
            /\ findReferences doc2 strong_to_weak "" = [found]
            /\ findReferences doc2 weak_to_strong "" = []
            /\ (d = strong_descriptor (VStr "person-1") -> doc2 = doc).
Proof.
  intros d doc found found_weak.
  apply (C2_round_trip_through_weak doc
           [Key "items"; Index 1; Key "linked"] d);
    reflexivity.
Defined.

(** Two places the amended statement leaves out.  A descriptor that is
    itself an array element is a site of the document, but the finder
    only tests property values, so it reports nothing for it. *)
Example array_element_descriptor_is_not_reported :
  let doc :=
    VObj [("_id", VStr "post-1");
          ("authors",
           VArr [VObj [("_type", VStr "reference");
                       ("_ref", VStr "person-1")]])] in
  descriptor_sites doc
  = [([Key "authors"; Index 0],
      VObj [("_type", VStr "reference"); ("_ref", VStr "person-1")])]
  /\ findReferences doc strong_to_weak "" = [].
Proof. split; reflexivity. Qed.

(** A key with a dot gives a path that reads back as two keys: the patch
    does not reach the descriptor. *)
Example dotted_key_path_is_not_read_back :
  let doc :=
    VObj [("_id", VStr "post-1");
          ("meta.author",
           VObj [("_type", VStr "reference"); ("_ref", VStr "person-1")])] in
  map path (findReferences doc strong_to_weak "") = ["meta.author"]
  /\ parse_path "meta.author" = Some [Key "meta"; Key "author"]
  /\ apply_patches
       (build_patches strong_to_weak (findReferences doc strong_to_weak ""))
       doc = None.
Proof. repeat split; reflexivity. Qed.

(** * Further properties *)

(** ** The finder, in general *)

Lemma forEach_keys_In_inv {A : Type} (f : string -> value -> list A) fields o :
  In o (forEach_keys f fields) ->
  exists k x, In (k, x) fields /\ In o (f k x).
Proof.
  induction fields as [|[k x] rest IH]; simpl; [easy|].
  intros Hin. apply in_app_or in Hin as [Hin | Hin].
  - exists k, x. auto.
  - destruct (IH Hin) as (k' & x' & Hk & Ho). exists k', x'. auto.
Qed.

Lemma forEach_items_In_inv {A : Type} (f : value -> nat -> list A) items o :
  forall start,
    In o (forEach_items f items start) ->
    exists i x, nth_error items i = Some x /\ In o (f x (start + i)).
Proof.
  induction items as [|y rest IH]; intros start; simpl; [easy|].
  intros Hin. apply in_app_or in Hin as [Hin | Hin].
  - exists 0, y. rewrite Nat.add_0_r. auto.
  - destruct (IH _ Hin) as (i & x & Hi & Ho). exists (S i), x.
    rewrite <- Nat.add_succ_comm. auto.
Qed.

Lemma reach_container mode d segs v : reach mode d segs v -> container v = true.
Proof. now destruct 1. Qed.

Lemma reach_reported mode d segs v :
  reach mode d segs v ->
  forall p, In (entry mode (render_from p segs) d) (findReferences v mode p).
Proof.
  induction 1 as [fields key Hin Hsel
                 |fields key x segs Hin Hsel Hreach IH
                 |items index x segs Hnth Hreach IH]; intros p.
  - now apply selected_field_found.
  - rewrite findReferences_obj. eapply forEach_keys_In; [exact Hin|].
    rewrite visit_field_cases, container_visited, Hsel
      by (eapply reach_container; eassumption).
    apply IH.
  - rewrite findReferences_arr. eapply forEach_items_nth; [exact Hnth|].
    apply IH.
Qed.

Lemma reported_reach mode v :
  forall p r,
    In r (findReferences v mode p) ->
    exists segs d,
      reach mode d segs v /\ r = entry mode (render_from p segs) d.
Proof.
  induction v as [| | | | |items IH|fields IH] using value_tree_ind;
    intros p r Hin; try contradiction.
  - rewrite findReferences_arr in Hin.
    apply forEach_items_In_inv in Hin as (i & x & Hnth & Hin).
    rewrite Forall_forall in IH.
    destruct (IH x (nth_error_In _ _ Hnth) _ _ Hin) as (segs & d & Hreach & ->).
    exists (Index i :: segs), d. split; [|reflexivity].
    eapply reach_in_item; eassumption.
  - rewrite findReferences_obj in Hin.
    apply forEach_keys_In_inv in Hin as (k & x & Hk & Hin).
    rewrite visit_field_cases in Hin.
    destruct (truthy x && typeof_object x); [|contradiction].
    destruct (selected mode x) eqn:Hsel.
    + destruct Hin as [<- | []]. exists [Key k], x.
      split; [now apply reach_field | reflexivity].
    + rewrite Forall_forall in IH.
      destruct (IH (k, x) Hk _ _ Hin) as (segs & d & Hreach & ->).
      exists (Key k :: segs), d. split; [|reflexivity].
      eapply reach_in_field; eassumption.
Qed.

(** X1: what the finder reports is exactly what its traversal reaches:
    an entry is in the result if and only if it is the entry of a
    property value that the mode selects, found by going through array
    elements and through property values that are not selected, with the
    path written from the keys and indices on the way. *)
Theorem X1_reported_iff_reached :
  forall v mode p r,
    In r (findReferences v mode p)
    <-> exists segs d,
          reach mode d segs v /\ r = entry mode (render_from p segs) d.
Proof.
  intros v mode p r. split.
  - apply reported_reach.
  - intros (segs & d & Hreach & ->). now apply reach_reported.
Qed.

Lemma reach_selected mode d segs v :
  reach mode d segs v -> selected mode d = true.
Proof. induction 1; assumption. Qed.

(** X2: every entry of a result has a truthy [ref] and the type of the
    mode; in weak-to-strong mode its [weak] is [true], in strong-to-weak
    mode its [weak] is [false] or the truthy [_weak] of the descriptor. *)
Theorem X2_entries_have_the_shape_of_the_mode :
  forall v mode p r,
    In r (findReferences v mode p) ->
    truthy (ref r) = true
    /\ type r = strength_of mode
    /\ match mode with
       | weak_to_strong => weak r = VBool true
       | strong_to_weak => weak r = VBool false \/ truthy (weak r) = true
       end.
Proof.
  intros v mode p r Hin.
  apply reported_reach in Hin as (segs & d & Hreach & ->).
  pose proof (reach_selected _ _ _ _ Hreach) as Hsel.
  pose proof (selected_is_reference _ _ Hsel) as Href.
  unfold is_reference in Href. apply andb_true_iff in Href as [_ Href].
  destruct mode; simpl; repeat split; auto.
  unfold js_or. destruct (truthy (get d "_weak")) eqn:Hweak; auto.
Qed.

Lemma X2_entries_have_the_shape_of_the_mode_witness :
  let r :=
    {| path := "author"; type := weak_ref; ref := VStr "person-1";
       weak := VBool true |} in
  truthy (ref r) = true
  /\ type r = strength_of weak_to_strong
  /\ weak r = VBool true.
Proof.
  intros r.
  apply (X2_entries_have_the_shape_of_the_mode
           (VObj [("author", weak_descriptor (VStr "person-1"))])
           weak_to_strong "" r).
  simpl. left. reflexivity.
Defined.

Lemma forEach_keys_length_le {A B : Type}
  (f : string -> value -> list A) (g : string -> value -> list B) fields :
  Forall (fun kv => List.length (f (fst kv) (snd kv))
                    <= List.length (g (fst kv) (snd kv)))%nat fields ->
  (List.length (forEach_keys f fields)
   <= List.length (forEach_keys g fields))%nat.
Proof.
  induction 1 as [|[k x] rest Hx _ IH]; simpl; [lia|].
  simpl in Hx. rewrite !length_app. lia.
Qed.

Lemma forEach_items_length_le {A B : Type}
  (f : value -> nat -> list A) (g : value -> nat -> list B) items :
  Forall (fun x => forall i j,
            List.length (f x i) <= List.length (g x j))%nat items ->
  forall start start',
    (List.length (forEach_items f items start)
     <= List.length (forEach_items g items start'))%nat.
Proof.
  induction 1 as [|x rest Hx _ IH]; intros start start'; simpl; [lia|].
  rewrite !length_app. specialize (Hx start start').
  specialize (IH (S start) (S start')). lia.
Qed.

Lemma site_of_length s x inner :
  List.length (site_of s x inner)
  = (if is_reference x then 1 else 0) + List.length inner.
Proof.
  unfold site_of. rewrite length_app, length_map.
  now destruct (is_reference x).
Qed.

(** X3: the finder reports at most one entry per reference descriptor of
    the tree: a result is never longer than the list of the places where
    a descriptor sits. *)
Theorem X3_no_more_entries_than_descriptors :
  forall v mode p,
    (List.length (findReferences v mode p) <= List.length (sites_in v))%nat.
Proof.
  induction v as [| | | | |items IH|fields IH] using value_tree_ind;
    intros mode p; try (simpl; lia).
  - rewrite findReferences_arr, sites_in_arr.
    apply forEach_items_length_le.
    apply Forall_forall. intros x Hx i j.
    rewrite Forall_forall in IH. rewrite site_of_length.
    specialize (IH x Hx mode (indexPath p i)). lia.
  - rewrite findReferences_obj, sites_in_obj.
    apply forEach_keys_length_le.
    apply Forall_forall. intros [k x] Hx. simpl.
    rewrite Forall_forall in IH. rewrite site_of_length, visit_field_cases.
    destruct (truthy x && typeof_object x); [|simpl; lia].
    destruct (selected mode x) eqn:Hsel.
    + rewrite (selected_is_reference _ _ Hsel). simpl. lia.
    + specialize (IH (k, x) Hx mode (currentPath p k)). simpl in IH. lia.
Qed.

(** X4: the result follows the order of the properties: the entries of
    an object are those of its first properties followed by those of the
    remaining ones, under the same path. *)
Theorem X4_entries_follow_property_order :
  forall fields1 fields2 mode p,
    findReferences (VObj (fields1 ++ fields2)) mode p
    = (findReferences (VObj fields1) mode p
       ++ findReferences (VObj fields2) mode p)%list.
Proof.
  intros fields1 fields2 mode p.
  rewrite !findReferences_obj. apply forEach_keys_app.
Qed.

(** ** Patches *)

(** X5: the value a patch sets holds the type tag, the target of the
    entry and, in strong-to-weak mode only, the weak marker; it holds
    nothing else, so any other property of the descriptor it replaces
    ([_key], for one) is not in it.  The patch goes to the path of the
    entry. *)
Theorem X5_patch_value_has_only_the_reference_fields :
  forall mode r,
    fst (patch_of mode r) = path r
    /\ get (snd (patch_of mode r)) "_type" = VStr "reference"
    /\ get (snd (patch_of mode r)) "_ref" = ref r
    /\ get (snd (patch_of mode r)) "_weak"
       = match mode with
         | strong_to_weak => VBool true
         | weak_to_strong => VUndefined
         end
    /\ forall key,
         key <> "_type" -> key <> "_ref" -> key <> "_weak" ->
         get (snd (patch_of mode r)) key = VUndefined.
Proof.
  intros mode r.
  destruct mode; (repeat split; try reflexivity);
    intros key Htype Href Hweak; cbn [patch_of snd get weak_descriptor
                                      strong_descriptor lookup];
    apply not_eq_sym in Htype, Href, Hweak;
    apply String.eqb_neq in Htype, Href, Hweak;
    now rewrite ?Htype, ?Href, ?Hweak.
Qed.

Lemma X5_patch_value_has_only_the_reference_fields_witness :
  get (snd (patch_of strong_to_weak
              {| path := "authors[0]"; type := strong;
                 ref := VStr "person-1"; weak := VBool false |}))
    "_key" = VUndefined.
Proof.
  apply (X5_patch_value_has_only_the_reference_fields strong_to_weak
           {| path := "authors[0]"; type := strong;
              ref := VStr "person-1"; weak := VBool false |});
    discriminate.
Defined.

(** X6: a strong-to-weak conversion is found again by the next
    strong-to-weak scan.  For a well-formed document whose only
    descriptor sits in an object field, the scan of the patched document
    still yields one entry for it, of type ['strong'], now with [weak]
    [true]. *)
Theorem X6_converted_reference_is_scanned_again :
  forall doc segs d,
    well_formed doc = true ->
    descriptor_sites doc = [(segs, d)] ->
    ends_in_key segs = true ->
    exists doc1,
      apply_patches
        (build_patches strong_to_weak (findReferences doc strong_to_weak ""))
        doc = Some doc1
      /\ findReferences doc1 strong_to_weak ""
         = [ {| path := render segs; type := strong; ref := get d "_ref";
                weak := VBool true |} ].
Proof.
  intros doc segs d Hwf Hsites Hend.
  assert (Hroot : is_reference doc = false).
  { unfold descriptor_sites in Hsites.
    destruct (is_reference doc); [|reflexivity].
    injection Hsites as <- _ _. discriminate. }
  unfold descriptor_sites in Hsites. rewrite Hroot in Hsites.
  simpl in Hsites.
  pose proof (unique_site_focus d segs doc Hsites) as Hfocus.
  pose proof (focus_plain d segs doc Hfocus Hwf) as Hplain.
  assert (Hd : is_reference d = true /\ sites_in d = []).
  { clear -Hfocus. induction Hfocus; auto. }
  destruct Hd as [Href Hin].
  destruct (is_reference_object d Href) as [fs ->].
  assert (Htarget : truthy (get (VObj fs) "_ref") = true).
  { unfold is_reference in Href. now apply andb_true_iff in Href. }
  assert (Hclean : clean (get (VObj fs) "_ref")) by (now apply clean_lookup).
  destruct (set_descriptors _ Htarget Hclean) as [[Hwref Hwin] _].
  destruct (focus_set (VObj fs) (weak_descriptor (get (VObj fs) "_ref"))
              segs doc Hfocus Hwf Hwref Hwin)
    as (doc1 & Hset1 & Hfocus1 & _ & _).
  exists doc1. split.
  - rewrite (focus_found strong_to_weak (VObj fs) segs doc Hfocus Hend Href).
    cbn [build_patches map patch_of apply_patches entry path ref].
    now rewrite store_set_render, Hset1.
  - now rewrite (focus_found strong_to_weak _ segs doc1 Hfocus1 Hend Hwref).
Qed.

Lemma X6_converted_reference_is_scanned_again_witness :
  let doc :=
    VObj [("_id", VStr "post-1");
          ("author",
           VObj [("_type", VStr "reference"); ("_ref", VStr "person-1")])] in
  exists doc1,
    apply_patches
      (build_patches strong_to_weak (findReferences doc strong_to_weak ""))
      doc = Some doc1
    /\ findReferences doc1 strong_to_weak ""
       = [ {| path := "author"; type := strong; ref := VStr "person-1";
              weak := VBool true |} ].
Proof.
  intros doc.
  apply (X6_converted_reference_is_scanned_again doc [Key "author"]
           (VObj [("_type", VStr "reference"); ("_ref", VStr "person-1")]));
    reflexivity.
Defined.

(** ** Scan, in general *)

Lemma refsToConvert_filter mode docs :
  map document (refsToConvert mode docs)
  = filter (fun doc =>
              negb (List.length (findReferences doc mode "") =? 0)%nat) docs.
Proof.
  induction docs as [|doc rest IH]; simpl; [reflexivity|].
  destruct (findReferences doc mode "") as [|r refs] eqn:Hfind; simpl;
    now rewrite IH.
Qed.

Lemma refsToConvert_counts mode docs :
  Forall (fun g =>
            references g = findReferences (document g) mode ""
            /\ refCount g = List.length (references g))
    (refsToConvert mode docs).
Proof.
  induction docs as [|doc rest IH]; simpl; [constructor|].
  destruct (findReferences doc mode "") as [|r refs] eqn:Hfind; simpl.
  - assumption.
  - constructor; [|assumption]. simpl. now rewrite Hfind.
Qed.

(** X7: the groups of a scan are the fetched documents for which the
    finder returns something, in the order of the fetch, none twice and
    none left out; each group carries the finder's result for its
    document and counts it in [refCount]. *)
Theorem X7_scan_keeps_matching_documents_in_order :
  forall mode docs,
    map document (refsToConvert mode docs)
    = filter (fun doc =>
                negb (List.length (findReferences doc mode "") =? 0)%nat) docs
    /\ Forall (fun g =>
                 references g = findReferences (document g) mode ""
                 /\ refCount g = List.length (references g))
         (refsToConvert mode docs).
Proof.
  intros mode docs. split.
  - apply refsToConvert_filter.
  - apply refsToConvert_counts.
Qed.

(** X8: a scan with a client sets [isScanning] first and resets it last,
    whether the fetch answers or throws.  When the fetch throws, [onError]
    gets the message of the error (or ["Scan failed"]) once, and neither
    the documents nor the groups are set: the groups of an earlier scan
    stay as they were.  When it answers, [onError] is not called. *)
Theorem X8_scan_brackets_and_failure :
  forall (St : Type) (c : SanityClient St) maxDocuments selectedType
         searchQuery useCustomQuery customGroqQuery mode (st : St),
    let answer :=
      fst (fetch c (build_query maxDocuments selectedType searchQuery
                      useCustomQuery customGroqQuery) st) in
    let evs :=
      events (scanForReferences (Some c) maxDocuments selectedType
                searchQuery useCustomQuery customGroqQuery mode st) in
    hd (setIsScanning false) evs = setIsScanning true
    /\ last evs (setIsScanning true) = setIsScanning false
    /\ match answer with
       | inl e =>
           filter (fun ev => match ev with onError _ => true | _ => false end)
             evs = [onError (error_message e "Scan failed")]
           /\ (forall docs, ~ In (setDocuments docs) evs)
           /\ (forall groups, ~ In (setStrongRefs groups) evs)
       | inr docs =>
           (forall text, ~ In (onError text) evs)
           /\ In (setDocuments docs) evs
           /\ In (setStrongRefs (refsToConvert mode docs)) evs
       end.
Proof.
  intros St c maxDocuments selectedType searchQuery useCustomQuery
    customGroqQuery mode st answer evs.
  subst answer evs. unfold scanForReferences.
  destruct (fetch c _ st) as [[e | docs] st']; cbn [fst events].
  - split; [reflexivity|]. split; [reflexivity|]. split; [reflexivity|].
    split; intros x Hin; simpl in Hin;
      repeat (destruct Hin as [Hin | Hin]; [discriminate|]); contradiction.
  - split; [reflexivity|]. split; [reflexivity|]. split.
    + intros text Hin. simpl in Hin.
      repeat (destruct Hin as [Hin | Hin]; [discriminate|]); contradiction.
    + split; simpl; auto.
Qed.

(** X9: the document cap only enters the generated query.  A custom
    query that is switched on and not empty is sent as it is, whatever the
    cap, the type filter and the search text; a custom query that is
    switched on but empty is ignored and the generated query is sent. *)
Theorem X9_custom_query_bypasses_the_cap :
  forall (St : Type) (c : SanityClient St) maxDocuments selectedType
         searchQuery customGroqQuery mode (st : St),
    (customGroqQuery <> "" ->
     store (scanForReferences (Some c) maxDocuments selectedType searchQuery
              true customGroqQuery mode st)
     = snd (fetch c customGroqQuery st))
    /\ scanForReferences (Some c) maxDocuments selectedType searchQuery
         true "" mode st
       = scanForReferences (Some c) maxDocuments selectedType searchQuery
           false customGroqQuery mode st.
Proof.
  intros St c maxDocuments selectedType searchQuery customGroqQuery mode st.
  split.
  - intros Hne. apply String.eqb_neq in Hne.
    unfold scanForReferences, build_query. rewrite Hne. cbn [andb negb].
    now destruct (fetch c customGroqQuery st) as [[e | docs] st'].
  - reflexivity.
Qed.

Lemma X9_custom_query_bypasses_the_cap_witness :
  store (scanForReferences (Some (recording_client [] (fun _ => None)))
           5 "post" "intro" true "*[_type == 'author']" strong_to_weak [])
  = [Fetch "*[_type == 'author']"].
Proof.
  apply (X9_custom_query_bypasses_the_cap (list call)
           (recording_client [] (fun _ => None)) 5 "post" "intro"
           "*[_type == 'author']" strong_to_weak []).
  discriminate.
Defined.

(** ** Conversion runs, in general *)

Lemma committed_or_failed groups : forall answers,
  List.length answers = List.length groups ->
  List.length (committed groups answers)
  + List.length (failure_messages groups answers)
  = List.length groups.
Proof.
  induction groups as [|g rest IH]; intros [|[e|] more]; simpl;
    try discriminate; try reflexivity;
    intros Hlen; injection Hlen as Hlen; specialize (IH more Hlen); lia.
Qed.

(** X10: a run that commits (batch size at least 1, at least one group)
    ends and hands over one result: [converted] is the number of groups
    whose commit went through, [errors] holds one message per group
    whose commit threw, in the order of the groups, and [spaceSaved] is
    the estimate for the groups that went through.  The store is left in
    the state after the last commit. *)
Theorem X10_result_of_a_committing_run :
  forall (St : Type) (c : SanityClient St) batchSize mode groups (st : St),
    (1 <= batchSize)%Z -> groups <> [] ->
    let answers := commit_outcomes c mode groups st in
    exists r,
      convertReferences (Some c) batchSize false mode groups
        (S (List.length groups)) st = Returned r
      /\ completions (events r)
         = [ {| converted := List.length (committed groups answers);
                errors := failure_messages groups answers;
                spaceSaved := estimate mode (committed groups answers) |} ]
      /\ store r
         = current (fold_left (convert_item false mode c) groups (start st)).
Proof.
  intros St c batchSize mode groups st Hsize Hne answers.
  destruct (convert_run c batchSize false mode groups st Hsize Hne)
    as (log & Hrun & Hcompl & _).
  destruct (committed_items c mode groups (start st))
    as (Hcount & Hfail & Hsaved).
  eexists. split; [exact Hrun|]. cbn [events store].
  rewrite completions_app, Hcompl. cbn [completions app].
  split; [|reflexivity]. unfold result_of.
  rewrite Hcount, Hfail, Hsaved. reflexivity.
Qed.

Lemma X10_result_of_a_committing_run_witness :
  let group id :=
    {| document := VObj [("_id", VStr id)];
       references :=
         [ {| path := "author"; type := strong; ref := VStr "person-1";
              weak := VBool false |} ];
       refCount := 1 |} in
  let c :=
    recording_client []
      (fun id => if is_string id "B" then Some ThrowOther else None) in
  exists r,
    convertReferences (Some c) 1 false strong_to_weak
      [group "A"; group "B"; group "C"] 4 [] = Returned r
    /\ completions (events r)
       = [ {| converted := 2;
              errors := ["Failed to convert B: Conversion failed"];
              spaceSaved := 40 |} ]
    /\ store r
       = current (fold_left (convert_item false strong_to_weak c)
                    [group "A"; group "B"; group "C"] (start [])).
Proof.
  intros group c.
  apply (X10_result_of_a_committing_run (list call) c 1 strong_to_weak
           [group "A"; group "B"; group "C"] []).
  - lia.
  - discriminate.
Defined.

(** X11: in the result of a run, dry or not, every group is accounted
    for once: [converted] plus the number of [errors] is the number of
    groups. *)
Theorem X11_every_group_is_counted_or_reported :
  forall (St : Type) (c : SanityClient St) batchSize dryRun mode groups
         (st : St),
    (1 <= batchSize)%Z -> groups <> [] ->
    exists r res,
      convertReferences (Some c) batchSize dryRun mode groups
        (S (List.length groups)) st = Returned r
      /\ completions (events r) = [res]
      /\ converted res + List.length (errors res) = List.length groups.
Proof.
  intros St c batchSize dryRun mode groups st Hsize Hne.
  destruct (convert_run c batchSize dryRun mode groups st Hsize Hne)
    as (log & Hrun & Hcompl & _).
  eexists. eexists. split; [exact Hrun|]. cbn [events].
  rewrite completions_app, Hcompl. cbn [completions app].
  split; [reflexivity|]. unfold result_of. cbn [converted errors].
  destruct dryRun.
  - destruct (dry_items c mode groups (start st)) as (-> & -> & _).
    simpl. lia.
  - destruct (committed_items c mode groups (start st)) as (-> & -> & _).
    simpl. apply committed_or_failed, commit_outcomes_length.
Qed.

Lemma X11_every_group_is_counted_or_reported_witness :
  let group id :=
    {| document := VObj [("_id", VStr id)];
       references := [];
       refCount := 0 |} in
  let c :=
    recording_client []
      (fun id => if is_string id "B" then Some ThrowOther else None) in
  exists r res,
    convertReferences (Some c) 2 false weak_to_strong
      [group "A"; group "B"; group "C"] 4 [] = Returned r
    /\ completions (events r) = [res]
    /\ converted res + List.length (errors res) = 3.
Proof.
  intros group c.
  apply (X11_every_group_is_counted_or_reported (list call) c 2 false
           weak_to_strong [group "A"; group "B"; group "C"] []).
  - lia.
  - discriminate.
Defined.

Lemma estimate_weak_to_strong groups : estimate weak_to_strong groups = 0.
Proof. reflexivity. Qed.

Lemma estimate_strong_to_weak groups :
  estimate strong_to_weak groups
  = 20 * list_sum (map (fun g => List.length (references g)) groups).
Proof.
  unfold estimate. simpl. induction groups as [|g rest IH]; simpl; lia.
Qed.

Lemma committed_refs_le groups : forall answers,
  (list_sum (map (fun g => List.length (references g))
               (committed groups answers))
   <= list_sum (map (fun g => List.length (references g)) groups))%nat.
Proof.
  induction groups as [|g rest IH]; intros [|[e|] more]; simpl; try lia;
    specialize (IH more); lia.
Qed.

(** X12: [spaceSaved] is 0 after every weak-to-strong run; after a
    strong-to-weak run it is 20 times the number of references of the
    groups that were converted, so a multiple of 20 that is at most 20
    times the number of references of all groups. *)
Theorem X12_space_saved_is_twenty_per_converted_reference :
  forall (St : Type) (c : SanityClient St) batchSize dryRun mode groups
         (st : St),
    (1 <= batchSize)%Z -> groups <> [] ->
    exists r res,
      convertReferences (Some c) batchSize dryRun mode groups
        (S (List.length groups)) st = Returned r
      /\ completions (events r) = [res]
      /\ match mode with
         | weak_to_strong => spaceSaved res = 0
         | strong_to_weak =>
             exists done,
               done = (if dryRun then groups
                       else committed groups
                              (commit_outcomes c mode groups st))
               /\ spaceSaved res
                  = 20 * list_sum (map (fun g => List.length (references g))
                                     done)
               /\ (spaceSaved res
                   <= 20 * list_sum (map (fun g => List.length (references g))
                                       groups))%nat
         end.
Proof.
  intros St c batchSize dryRun mode groups st Hsize Hne.
  destruct (convert_run c batchSize dryRun mode groups st Hsize Hne)
    as (log & Hrun & Hcompl & _).
  eexists. eexists. split; [exact Hrun|]. cbn [events].
  rewrite completions_app, Hcompl. cbn [completions app].
  split; [reflexivity|]. unfold result_of. cbn [spaceSaved].
  assert (Hsaved :
            saved (fold_left (convert_item dryRun mode c) groups (start st))
            = estimate mode
                (if dryRun then groups
                 else committed groups (commit_outcomes c mode groups st))).
  { destruct dryRun.
    - now destruct (dry_items c mode groups (start st)) as (_ & _ & -> & _).
    - now destruct (committed_items c mode groups (start st))
        as (_ & _ & ->). }
  rewrite Hsaved. destruct mode.
  - eexists. split; [reflexivity|]. rewrite estimate_strong_to_weak.
    split; [reflexivity|].
    destruct dryRun; [lia|]. pose proof (committed_refs_le groups
      (commit_outcomes c strong_to_weak groups st)). lia.
  - apply estimate_weak_to_strong.
Qed.

Lemma X12_space_saved_is_twenty_per_converted_reference_witness :
  let group id n :=
    {| document := VObj [("_id", VStr id)];
       references :=
         repeat {| path := "author"; type := weak_ref; ref := VStr "person-1";
                   weak := VBool true |} n;
       refCount := n |} in
  exists r res,
    convertReferences (Some (recording_client [] (fun _ => None))) 10 false
      weak_to_strong [group "A" 2; group "B" 5] 3 [] = Returned r
    /\ completions (events r) = [res]
    /\ spaceSaved res = 0.
Proof.
  intros group.
  apply (X12_space_saved_is_twenty_per_converted_reference (list call)
           (recording_client [] (fun _ => None)) 10 false weak_to_strong
           [group "A" 2; group "B" 5] []).
  - lia.
  - discriminate.
Defined.

(** X13: the batch size changes the progress messages and nothing else:
    with any two batch sizes of at least 1 a run hands over the same
    result and leaves the store in the same state. *)
Theorem X13_result_does_not_depend_on_batch_size :
  forall (St : Type) (c : SanityClient St) size1 size2 dryRun mode groups
         (st : St),
    (1 <= size1)%Z -> (1 <= size2)%Z -> groups <> [] ->
    exists r1 r2,
      convertReferences (Some c) size1 dryRun mode groups
        (S (List.length groups)) st = Returned r1
      /\ convertReferences (Some c) size2 dryRun mode groups
           (S (List.length groups)) st = Returned r2
      /\ completions (events r1) = completions (events r2)
      /\ store r1 = store r2.
Proof.
  intros St c size1 size2 dryRun mode groups st H1 H2 Hne.
  destruct (convert_run c size1 dryRun mode groups st H1 Hne)
    as (log1 & Hrun1 & Hcompl1 & _).
  destruct (convert_run c size2 dryRun mode groups st H2 Hne)
    as (log2 & Hrun2 & Hcompl2 & _).
  eexists. eexists. split; [exact Hrun1|]. split; [exact Hrun2|].
  cbn [events store]. rewrite !completions_app, Hcompl1, Hcompl2.
  split; reflexivity.
Qed.

Lemma X13_result_does_not_depend_on_batch_size_witness :
  let group id :=
    {| document := VObj [("_id", VStr id)];
       references :=
         [ {| path := "author"; type := strong; ref := VStr "person-1";
              weak := VBool false |} ];
       refCount := 1 |} in
  let c :=
    recording_client []
      (fun id => if is_string id "B" then Some ThrowOther else None) in
  exists r1 r2,
    convertReferences (Some c) 1 false strong_to_weak
      [group "A"; group "B"; group "C"] 4 [] = Returned r1
    /\ convertReferences (Some c) 50 false strong_to_weak
         [group "A"; group "B"; group "C"] 4 [] = Returned r2
    /\ completions (events r1) = completions (events r2)
    /\ store r1 = store r2.
Proof.
  intros group c.
  apply (X13_result_does_not_depend_on_batch_size (list call) c 1 50 false
           strong_to_weak [group "A"; group "B"; group "C"] []).
  - lia.
  - lia.
  - discriminate.
Defined.

(** ** Progress, and batch sizes that are not positive *)

Section Trace.
Context {St : Type}.
Variable c : SanityClient St.
Variable batchSize : Z.
Variable dryRun : bool.
Variable mode : conversion.
Variable groups : list ReferenceGroup.

(** The loop adds one message per batch to the log, and nothing else. *)
Lemma convert_loop_trace fuel : forall i p log,
  exists more,
    snd (so_far (convert_loop batchSize dryRun mode groups fuel c i p log))
    = (log ++ more)%list
    /\ forallb is_message more = true
    /\ List.length more = List.length (batches batchSize groups fuel i).
Proof.
  induction fuel as [|fuel IH]; intros i p log; simpl.
  - exists []. now rewrite app_nil_r.
  - destruct (i <? Z.of_nat (List.length groups))%Z; simpl.
    + destruct (IH (i + batchSize)%Z
                  (convert_batch dryRun mode c p
                     (js_slice groups i (i + batchSize)))
                  (log ++ [batch_message dryRun groups
                             (convert_batch dryRun mode c p
                                (js_slice groups i (i + batchSize)))])%list)
        as (more & Hlog & Hall & Hlen).
      eexists (_ :: more). rewrite Hlog, <- app_assoc. simpl.
      repeat split; auto.
    + exists []. now rewrite app_nil_r.
Qed.

(** With a positive batch size there are as many batches as the size
    goes into what is left, rounded up. *)
Lemma batches_count fuel : forall i,
  (1 <= batchSize)%Z -> (0 <= i)%Z ->
  (Z.of_nat (List.length groups) - i < Z.of_nat fuel)%Z ->
  Z.of_nat (List.length (batches batchSize groups fuel i))
  = Z.max 0 ((Z.of_nat (List.length groups) - i + batchSize - 1) / batchSize).
Proof.
  induction fuel as [|fuel IH]; intros i Hsize Hi Hfuel; simpl.
  - assert (Hq : ((Z.of_nat (List.length groups) - i + batchSize - 1)
                  / batchSize <= 0)%Z).
    { apply Z.lt_succ_r. apply Z.div_lt_upper_bound; lia. }
    lia.
  - destruct (Z.ltb_spec i (Z.of_nat (List.length groups))) as [Hlt | Hge].
    + cbn [List.length]. rewrite Nat2Z.inj_succ, IH by lia.
      replace (Z.of_nat (List.length groups) - i + batchSize - 1)%Z
        with (Z.of_nat (List.length groups) - (i + batchSize)
              + batchSize - 1 + 1 * batchSize)%Z by lia.
      rewrite Z.div_add by lia.
      assert (Hq : (0 <= (Z.of_nat (List.length groups) - (i + batchSize)
                          + batchSize - 1) / batchSize)%Z).
      { apply Z.div_pos; lia. }
      lia.
    + assert (Hq : ((Z.of_nat (List.length groups) - i + batchSize - 1)
                    / batchSize <= 0)%Z).
      { apply Z.lt_succ_r. apply Z.div_lt_upper_bound; lia. }
      simpl. lia.
Qed.

(** With a batch size of 0 or less the index never gets past the groups:
    however long the loop runs, it has not ended. *)
Lemma convert_loop_goes_on fuel : forall i p log,
  (batchSize <= 0)%Z -> (i <= 0)%Z -> groups <> [] ->
  returned (convert_loop batchSize dryRun mode groups fuel c i p log) = false.
Proof.
  induction fuel as [|fuel IH]; intros i p log Hsize Hi Hne; simpl.
  - reflexivity.
  - destruct (Z.ltb_spec i (Z.of_nat (List.length groups))) as [_ | Hge].
    + apply IH; auto. lia.
    + destruct groups; [contradiction | simpl in Hge; lia].
Qed.
End Trace.

Lemma forallb_is_message_completions evs :
  forallb is_message evs = true -> completions evs = [].
Proof.
  induction evs as [|e evs IH]; [reflexivity|].
  destruct e; simpl; try discriminate. exact IH.
Qed.

Lemma forallb_is_message_In evs e :
  forallb is_message evs = true -> In e evs -> is_message e = true.
Proof.
  intros Hall Hin. rewrite forallb_forall in Hall. now apply Hall.
Qed.

(** X14: the events of a run with a batch size of at least 1 over at
    least one group are, in order: loading on, the first message, one
    progress message per batch, the final message, [onComplete] with the
    result, loading off.  The number of progress messages is the number
    of groups divided by the batch size, rounded up. *)
Theorem X14_events_of_a_run :
  forall (St : Type) (c : SanityClient St) batchSize dryRun mode groups
         (st : St),
    (1 <= batchSize)%Z -> groups <> [] ->
    exists r progress_messages res,
      convertReferences (Some c) batchSize dryRun mode groups
        (S (List.length groups)) st = Returned r
      /\ events r
         = (setIsLoading true :: setMessage "Converting references..."
            :: progress_messages
            ++ [setMessage (final_message dryRun (converted res));
                onComplete res; setIsLoading false])%list
      /\ forallb is_message progress_messages = true
      /\ Z.of_nat (List.length progress_messages)
         = ((Z.of_nat (List.length groups) + batchSize - 1) / batchSize)%Z.
Proof.
  intros St c batchSize dryRun mode groups st Hsize Hne.
  pose proof (convert_loop_returns c batchSize dryRun mode groups Hsize
                (S (List.length groups)) 0%Z (start st)
                [setIsLoading true; setMessage "Converting references..."]
                ltac:(lia) ltac:(lia)) as Hret.
  destruct (convert_loop_trace c batchSize dryRun mode groups
              (S (List.length groups)) 0%Z (start st)
              [setIsLoading true; setMessage "Converting references..."])
    as (more & Hlog & Hall & Hlen).
  unfold convertReferences.
  replace (List.length groups =? 0)%nat with false by (now destruct groups).
  destruct (convert_loop batchSize dryRun mode groups (S (List.length groups))
              c 0 (start st) _) as [[p log] | [p log]]; [|discriminate].
  cbn [so_far snd] in Hlog. subst log.
  exists {| events :=
              ([setIsLoading true; setMessage "Converting references..."]
               ++ more)
              ++ [setMessage (final_message dryRun (count p));
                  onComplete (result_of p); setIsLoading false];
            store := current p |}, more, (result_of p).
  split; [reflexivity|]. split; [reflexivity|]. split; [assumption|].
  rewrite Hlen, batches_count by lia.
  assert (0 <= (Z.of_nat (List.length groups) - 0 + batchSize - 1)
               / batchSize)%Z by (apply Z.div_pos; lia).
  rewrite Z.sub_0_r in *. lia.
Qed.

Lemma X14_events_of_a_run_witness :
  let group id :=
    {| document := VObj [("_id", VStr id)];
       references := [];
       refCount := 0 |} in
  exists r progress_messages res,
    convertReferences (Some (recording_client [] (fun _ => None))) 2 true
      strong_to_weak [group "A"; group "B"; group "C"] 4 [] = Returned r
    /\ events r
       = (setIsLoading true :: setMessage "Converting references..."
          :: progress_messages
          ++ [setMessage (final_message true (converted res));
              onComplete res; setIsLoading false])%list
    /\ forallb is_message progress_messages = true
    /\ Z.of_nat (List.length progress_messages) = ((3 + 2 - 1) / 2)%Z.
Proof.
  intros group.
  apply (X14_events_of_a_run (list call)
           (recording_client [] (fun _ => None)) 2 true strong_to_weak
           [group "A"; group "B"; group "C"] []).
  - lia.
  - discriminate.
Defined.

(** X15: with a batch size of 0 or less a run over at least one group
    never ends: whatever the number of rounds, it has not returned, no
    result has been handed to [onComplete] and loading has not been
    switched off. *)
Theorem X15_non_positive_batch_size_never_returns :
  forall (St : Type) (c : SanityClient St) batchSize dryRun mode groups fuel
         (st : St),
    (batchSize <= 0)%Z -> groups <> [] ->
    let o := convertReferences (Some c) batchSize dryRun mode groups fuel st in
    returned o = false
    /\ completions (events (so_far o)) = []
    /\ ~ In (setIsLoading false) (events (so_far o)).
Proof.
  intros St c batchSize dryRun mode groups fuel st Hsize Hne o. subst o.
  pose proof (convert_loop_goes_on c batchSize dryRun mode groups fuel 0%Z
                (start st)
                [setIsLoading true; setMessage "Converting references..."]
                Hsize ltac:(lia) Hne) as Hgo.
  destruct (convert_loop_trace c batchSize dryRun mode groups fuel 0%Z
              (start st)
              [setIsLoading true; setMessage "Converting references..."])
    as (more & Hlog & Hall & _).
  unfold convertReferences.
  replace (List.length groups =? 0)%nat with false by (now destruct groups).
  destruct (convert_loop batchSize dryRun mode groups fuel c 0 (start st) _)
    as [[p log] | [p log]]; [discriminate|].
  cbn [so_far snd returned events] in *. subst log.
  split; [reflexivity|]. split.
  - rewrite completions_app. simpl.
    now apply forallb_is_message_completions.
  - intros Hin. apply in_app_or in Hin as [Hin | Hin].
    + simpl in Hin. destruct Hin as [Hin | [Hin | []]]; discriminate.
    + now apply (forallb_is_message_In _ _ Hall) in Hin.
Qed.

Lemma X15_non_positive_batch_size_never_returns_witness :
  let g :=
    {| document := VObj [("_id", VStr "post-1")];
       references := [];
       refCount := 0 |} in
  let o :=
    convertReferences (Some (recording_client [] (fun _ => None))) 0 false
      strong_to_weak [g] 1000 [] in
  returned o = false
  /\ completions (events (so_far o)) = []
  /\ ~ In (setIsLoading false) (events (so_far o)).
Proof.
  intros g.
  apply (X15_non_positive_batch_size_never_returns (list call)
           (recording_client [] (fun _ => None)) 0 false strong_to_weak
           [g] 1000 []).
  - lia.
  - discriminate.
Defined.

(** ** What the store is asked, and what the panel shows *)

Lemma recorded_commits docs failing mode groups : forall p,
  current (fold_left
             (convert_item false mode (recording_client docs failing))
             groups p)
  = (current p ++ commits_of mode groups)%list.
Proof.
  induction groups as [|g rest IH]; intros p; simpl.
  - now rewrite app_nil_r.
  - rewrite IH. unfold convert_item. cbn [recording_client patch_commit].
    destruct (failing (get (document g) "_id")); simpl;
      now rewrite <- app_assoc.
Qed.

(** X16: a run that commits asks the store for exactly one commit per
    group, in the order of the groups, each with the [_id] of the
    group's document and one patch per reference; a commit that throws
    does not stop the commits of the groups after it. *)
Theorem X16_one_commit_per_group_in_order :
  forall docs failing batchSize mode groups st,
    (1 <= batchSize)%Z -> groups <> [] ->
    exists r,
      convertReferences (Some (recording_client docs failing)) batchSize
        false mode groups (S (List.length groups)) st = Returned r
      /\ store r = (st ++ commits_of mode groups)%list
      /\ Forall2 (fun g made =>
                    made = Commit (get (document g) "_id")
                             (build_patches mode (references g))
                    /\ map fst (build_patches mode (references g))
                       = map path (references g))
           groups (commits_of mode groups).
Proof.
  intros docs failing batchSize mode groups st Hsize Hne.
  destruct (convert_run (recording_client docs failing) batchSize false mode
              groups st Hsize Hne) as (log & Hrun & _).
  eexists. split; [exact Hrun|]. cbn [store].
  rewrite recorded_commits. split; [reflexivity|].
  clear. induction groups as [|g rest IH]; simpl; constructor; auto.
  split; [reflexivity|].
  unfold build_patches. rewrite map_map. apply map_ext.
  intros r. now destruct mode.
Qed.

Lemma X16_one_commit_per_group_in_order_witness :
  let group id :=
    {| document := VObj [("_id", VStr id)];
       references :=
         [ {| path := "author"; type := strong; ref := VStr "person-1";
              weak := VBool false |} ];
       refCount := 1 |} in
  let groups := [group "A"; group "B"; group "C"] in
  let failing id := if is_string id "A" then Some ThrowOther else None in
  exists r,
    convertReferences (Some (recording_client [] failing)) 2 false
      strong_to_weak groups 4 [] = Returned r
    /\ store r = ([] ++ commits_of strong_to_weak groups)%list
    /\ Forall2 (fun g made =>
                  made = Commit (get (document g) "_id")
                           (build_patches strong_to_weak (references g))
                  /\ map fst (build_patches strong_to_weak (references g))
                     = map path (references g))
         groups (commits_of strong_to_weak groups).
Proof.
  intros group groups failing.
  apply (X16_one_commit_per_group_in_order [] failing 2 strong_to_weak
           groups []).
  - lia.
  - discriminate.
Defined.

Lemma fold_left_sum {A : Type} (f : A -> nat) (l : list A) : forall a,
  fold_left (fun sum x => sum + f x) l a = a + list_sum (map f l).
Proof.
  induction l as [|x l IH]; intros a; simpl; [lia|]. rewrite IH. lia.
Qed.

(** X17: for the groups of a strong-to-weak scan, the references badge
    of the panel is the number of entries found in all listed documents,
    and the [spaceSaved] of a dry run over these groups is 20 times the
    badge. *)
Theorem X17_badge_and_estimate_agree :
  forall (St : Type) (c : SanityClient St) batchSize docs (st : St),
    (1 <= batchSize)%Z ->
    let groups := refsToConvert strong_to_weak docs in
    references_badge groups
    = list_sum (map (fun doc =>
                       List.length (findReferences doc strong_to_weak ""))
                  docs)
    /\ (groups <> [] ->
        exists r res,
          convertReferences (Some c) batchSize true strong_to_weak groups
            (S (List.length groups)) st = Returned r
          /\ completions (events r) = [res]
          /\ spaceSaved res = 20 * references_badge groups).
Proof.
  intros St c batchSize docs st Hsize groups.
  assert (Hbadge : references_badge groups
                   = list_sum (map (fun g => List.length (references g))
                                 groups)).
  { unfold references_badge. rewrite fold_left_sum. simpl.
    pose proof (refsToConvert_counts strong_to_weak docs) as Hall.
    fold groups in Hall. clearbody groups.
    induction Hall as [|g rest [_ Hg] _ IH]; simpl; [reflexivity|].
    now rewrite Hg, IH. }
  split.
  - rewrite Hbadge. subst groups. clear.
    induction docs as [|doc rest IH]; simpl; [reflexivity|].
    destruct (findReferences doc strong_to_weak "") as [|r refs] eqn:Hfind;
      simpl; rewrite IH; reflexivity.
  - intros Hne.
    destruct (convert_run c batchSize true strong_to_weak groups st Hsize Hne)
      as (log & Hrun & Hcompl & _).
    destruct (dry_items c strong_to_weak groups (start st))
      as (_ & _ & Hsaved & _).
    eexists. eexists. split; [exact Hrun|]. cbn [events].
    rewrite completions_app, Hcompl. cbn [completions app].
    split; [reflexivity|]. unfold result_of. cbn [spaceSaved].
    rewrite Hsaved, Hbadge, estimate_strong_to_weak. reflexivity.
Qed.

Lemma X17_badge_and_estimate_agree_witness :
  let doc id :=
    VObj [("_id", VStr id);
          ("author", strong_descriptor (VStr "person-1"));
          ("editor", strong_descriptor (VStr "person-2"))] in
  let groups := refsToConvert strong_to_weak [doc "A"; VNull; doc "B"] in
  references_badge groups = 4
  /\ (groups <> [] ->
      exists r res,
        convertReferences (Some (recording_client [] (fun _ => None))) 10
          true strong_to_weak groups (S (List.length groups)) []
        = Returned r
        /\ completions (events r) = [res]
        /\ spaceSaved res = 20 * references_badge groups).
Proof.
  intros doc groups.
  apply (X17_badge_and_estimate_agree (list call)
           (recording_client [] (fun _ => None)) 10
           [doc "A"; VNull; doc "B"] []).
  lia.
Defined.

(** X18: the panel lists the first documents of the scan, at most 10 of
    them, and the line under the list is shown exactly when there are
    more than 10, with the number of the documents that are not listed. *)
Theorem X18_listed_and_more_make_the_total :
  forall strongRefs,
    listed strongRefs = firstn 10 strongRefs
    /\ (List.length (listed strongRefs) <= 10)%nat
    /\ match more_documents strongRefs with
       | Some more =>
           (0 < more)%nat
           /\ List.length (listed strongRefs) + more = List.length strongRefs
       | None => listed strongRefs = strongRefs
       end.
Proof.
  intros strongRefs.
  assert (Hlisted : listed strongRefs = firstn 10 strongRefs).
  { unfold listed, js_slice.
    change (10 <? 0)%Z with false. change (0 <? 0)%Z with false. cbv iota.
    rewrite (Z.min_l 0) by lia. cbn [Z.to_nat skipn]. rewrite Z.sub_0_r.
    destruct (Z.le_gt_cases 10 (Z.of_nat (List.length strongRefs))).
    - rewrite Z.min_l by lia. reflexivity.
    - rewrite Z.min_r, Nat2Z.id by lia.
      rewrite !firstn_all2 by lia. reflexivity. }
  split; [exact Hlisted|]. rewrite Hlisted, length_firstn.
  split; [lia|]. unfold more_documents.
  destruct (Nat.ltb_spec 10 (List.length strongRefs)).
  - lia.
  - apply firstn_all2. lia.
Qed.

(** ** Byte sizes, at the ends of the table *)

(** X19: for every positive size below 1024^4 the number that is printed
    lies between 1 and 1024: the scaled value is at least 1, and rounding
    can lift it to 1024 but not above; 1048575 bytes print as
    ["1024 KB"], not as ["1 MB"]. *)
Theorem X19_printed_number_is_between_1_and_1024 :
  (forall bytes, (0 < bytes < 1024 ^ 4)%Z ->
     (100 <= toFixed2 bytes (unit_index bytes) <= 102400)%Z
     /\ exists unit,
          In unit sizes
          /\ formatBytes bytes
             = shortest (toFixed2 bytes (unit_index bytes)) ++ " " ++ unit)
  /\ formatBytes 1048575 = "1024 KB".
Proof.
  split; [|reflexivity].
  intros bytes [Hpos Hmax].
  assert (Hunit : exists unit,
             In unit sizes
             /\ formatBytes bytes
                = shortest (toFixed2 bytes (unit_index bytes)) ++ " " ++ unit).
  { destruct (unit_index_bounds bytes Hpos) as (Hi & Hlow & _).
    assert (Hi3 : (unit_index bytes <= 3)%Z).
    { destruct (Z.le_gt_cases (unit_index bytes) 3) as [|Hbig]; [assumption|].
      assert ((1024 ^ 4 <= 1024 ^ unit_index bytes)%Z)
        by (apply Z.pow_le_mono_r; lia).
      lia. }
    unfold formatBytes.
    destruct (Z.eqb_spec bytes 0) as [|_]; [lia|].
    destruct (Z.ltb_spec bytes 0) as [|_]; [lia|].
    assert (Hcases : unit_index bytes = 0%Z \/ unit_index bytes = 1%Z
                     \/ unit_index bytes = 2%Z \/ unit_index bytes = 3%Z)
      by lia.
    destruct Hcases as [-> | [-> | [-> | ->]]]; eexists;
      (split; [|reflexivity]); simpl; auto. }
  split; [|exact Hunit]. clear Hunit.
  destruct (unit_index_bounds bytes Hpos) as (Hi & Hlow & Hhigh).
  pose proof (toFixed2_nearest bytes (unit_index bytes) Hi) as Hnear.
  cbv zeta in Hnear.
  rewrite Z.pow_add_r in Hhigh by lia. change (1024 ^ 1)%Z with 1024%Z in Hhigh.
  assert (Hm : (0 < 1024 ^ unit_index bytes)%Z)
    by (apply Z.pow_pos_nonneg; lia).
  set (m := (1024 ^ unit_index bytes)%Z) in *.
  set (h := toFixed2 bytes (unit_index bytes)) in *.
  split; nia.
Qed.

Lemma X19_printed_number_is_between_1_and_1024_witness :
  (100 <= toFixed2 1536 (unit_index 1536) <= 102400)%Z
  /\ exists unit,
       In unit sizes
       /\ formatBytes 1536
          = shortest (toFixed2 1536 (unit_index 1536)) ++ " " ++ unit.
Proof.
  apply (proj1 X19_printed_number_is_between_1_and_1024 1536%Z). lia.
Defined.

(** X20: the table of units ends at GB: from 1024^4 bytes on the unit
    that is printed is the text ["undefined"]. *)
Theorem X20_no_unit_from_a_tebibyte_on :
  forall bytes,
    (1024 ^ 4 <= bytes < 2 ^ 53)%Z ->
    exists number, formatBytes bytes = number ++ " undefined".
Proof.
  intros bytes [Hlow _].
  exists (shortest (toFixed2 bytes (unit_index bytes))).
  assert (Hlog : (40 <= Z.log2 bytes)%Z).
  { change 40%Z with (Z.log2 (2 ^ 40)). apply Z.log2_le_mono.
    change (1024 ^ 4)%Z with (2 ^ 40)%Z in Hlow. exact Hlow. }
  assert (Hi : (4 <= unit_index bytes)%Z).
  { unfold unit_index. apply Z.div_le_lower_bound; lia. }
  assert (Hpos : (0 < bytes)%Z).
  { assert (0 < 1024 ^ 4)%Z by reflexivity. lia. }
  unfold formatBytes.
  destruct (Z.eqb_spec bytes 0) as [|_]; [lia|].
  destruct (Z.ltb_spec bytes 0) as [|_]; [lia|].
  rewrite nth_overflow by (simpl; lia). reflexivity.
Qed.

Lemma X20_no_unit_from_a_tebibyte_on_witness :
  exists number, formatBytes (1024 ^ 4) = number ++ " undefined".
Proof.
  apply (X20_no_unit_from_a_tebibyte_on (1024 ^ 4)%Z).
  split; [lia | reflexivity].
Defined.

(** ** Documents without an id, and paths that can be told apart *)

Lemma lookup_absent key fields :
  has_key key fields = false -> lookup key fields = VUndefined.
Proof.
  induction fields as [|[k x] rest IH]; simpl; [reflexivity|].
  intros H. apply orb_false_iff in H as [Hk Hrest].
  rewrite Hk. now apply IH.
Qed.

(** X21: a group whose document has no [_id] is still converted: the
    commit is asked for the id [undefined], and when it throws, the one
    message of the result names the document ["undefined"]. *)
Theorem X21_document_without_id :
  forall failing batchSize mode fields refs n st,
    (1 <= batchSize)%Z ->
    has_key "_id" fields = false ->
    let g := {| document := VObj fields; references := refs;
                refCount := n |} in
    exists r res,
      convertReferences (Some (recording_client [] failing)) batchSize false
        mode [g] 2 st = Returned r
      /\ store r = (st ++ [Commit VUndefined (build_patches mode refs)])%list
      /\ completions (events r) = [res]
      /\ forall e,
           failing VUndefined = Some e ->
           converted res = 0
           /\ errors res
              = ["Failed to convert undefined: "
                 ++ error_message e "Conversion failed"].
Proof.
  intros failing batchSize mode fields refs n st Hsize Hid g.
  destruct (convert_run (recording_client [] failing) batchSize false mode
              [g] st Hsize ltac:(discriminate)) as (log & Hrun & Hcompl & _).
  eexists. eexists. split; [exact Hrun|]. cbn [events store].
  rewrite completions_app, Hcompl, recorded_commits.
  cbn [completions app start current commits_of map document references g get].
  rewrite (lookup_absent _ _ Hid).
  split; [reflexivity|]. split; [reflexivity|].
  intros e He. unfold result_of. cbn [converted errors fold_left].
  unfold convert_item. cbn [recording_client patch_commit document get g].
  rewrite (lookup_absent _ _ Hid), He. unfold fail, failure_message.
  cbn [count failures start document get app g].
  rewrite (lookup_absent _ _ Hid). split; reflexivity.
Qed.

Lemma X21_document_without_id_witness :
  let g :=
    {| document := VObj [("title", VStr "Untitled")];
       references := []; refCount := 0 |} in
  let failing (id : value) := Some (ThrowError "missing id") in
  exists r res,
    convertReferences (Some (recording_client [] failing)) 10 false
      strong_to_weak [g] 2 [] = Returned r
    /\ store r
       = ([] ++ [Commit VUndefined (build_patches strong_to_weak [])])%list
    /\ completions (events r) = [res]
    /\ forall e,
         failing VUndefined = Some e ->
         converted res = 0
         /\ errors res
            = ["Failed to convert undefined: "
               ++ error_message e "Conversion failed"].
Proof.
  intros g failing.
  apply (X21_document_without_id failing 10 strong_to_weak
           [("title", VStr "Untitled")] [] 0 []).
  - lia.
  - reflexivity.
Defined.

(** X22: two positions whose keys are plain (not empty, no dot, no
    opening bracket) are written as the same path only when they are the
    same position; with a dot in a key this fails: the key [a.b] and the
    keys [a], [b] give the same text. *)
Theorem X22_paths_of_plain_positions_are_distinct :
  (forall segs1 segs2,
     plain_segs segs1 = true -> plain_segs segs2 = true ->
     render segs1 = render segs2 -> segs1 = segs2)
  /\ render [Key "a.b"] = render [Key "a"; Key "b"].
Proof.
  split; [|reflexivity].
  intros segs1 segs2 H1 H2 Heq.
  pose proof (parse_render segs1 H1) as Hp1.
  pose proof (parse_render segs2 H2) as Hp2.
  rewrite Heq, Hp2 in Hp1. now injection Hp1.
Qed.

Lemma X22_paths_of_plain_positions_are_distinct_witness :
  [Key "items"; Index 1; Key "linked"] = [Key "items"; Index 1; Key "linked"].
Proof.
  apply (proj1 X22_paths_of_plain_positions_are_distinct
           [Key "items"; Index 1; Key "linked"]
           [Key "items"; Index 1; Key "linked"]);
    reflexivity.
Defined.
